(** * xds/internal/testutils/balancer.go: a shallow embedding

    The file models the test utilities of package [testutils]: the pool of
    pre-allocated [TestSubConn]s, the mock [TestClientConn] with its buffered
    channels, the round-robin checker [IsRoundRobin], and the constant
    balancer and picker used as fixtures.

    Conventions.
    - Go's [int] is a 64-bit two's complement integer: it is a [Z] and every
      [++]/[--] goes through [wrap_int].
    - An interface value of type [balancer.SubConn] is [nil] or a pointer;
      [==] on it is pointer identity.
    - A buffered channel is its capacity and the list of buffered values,
      oldest first.
    - A call that can panic or block returns an [outcome]. *)

From Stdlib Require Import ZArith String.
From stdpp Require Import base decidable countable list gmap strings pretty.

Open Scope Z_scope.
Open Scope nat_scope.

(** ** Go runtime notions *)

Module Go.

(** [int] on a 64-bit platform. *)
Definition int := Z.
Definition int_min : Z := - 2 ^ 63.
Definition int_max : Z := 2 ^ 63 - 1.

(** Result of an [int] operation computed in two's complement. *)
Definition wrap_int (z : Z) : int := ((z + 2 ^ 63) mod 2 ^ 64 - 2 ^ 63)%Z.

(** [fmt.Errorf(format, args...)]: the error keeps the format and the
    slices it was given; the text is [format] with each [%v] replaced by
    the printed slice. *)
Inductive error (A : Type) : Type :=
| Errorf (format : string) (args : list (list A)).
Global Arguments Errorf {A} format args.

(** What a value-returning call can do besides returning. *)
Inductive panic_value : Type :=
| PanicString (msg : string)
| IndexOutOfRange (index : Z) (len : nat).

Inductive outcome (A : Type) : Type :=
| Ok (a : A)
| Panic (v : panic_value)
| Block.
Global Arguments Ok {A} a.
Global Arguments Panic {A} v.
Global Arguments Block {A}.

(** [s[i]] on a slice: a run-time panic when [i] is out of range. *)
Definition index {A} (s : list A) (i : int) : outcome A :=
  if (i <? 0)%Z then Panic (IndexOutOfRange i (length s))
  else match s !! Z.to_nat i with
       | Some x => Ok x
       | None => Panic (IndexOutOfRange i (length s))
       end.

(** A buffered channel [make(chan A, cap)]. *)
Record chan (A : Type) : Type := MkChan { cap : nat; buf : list A }.
Global Arguments MkChan {A} cap buf.
Global Arguments cap {A} c.
Global Arguments buf {A} c.

Definition make_chan {A} (n : nat) : chan A := MkChan n [].

Definition full {A} (c : chan A) : bool := bool_decide (cap c ≤ length (buf c)).

(** [select { case c <- x: default: }] *)
Definition try_send {A} (c : chan A) (x : A) : chan A :=
  if full c then c else MkChan (cap c) (buf c ++ [x]).

(** [select { case <-c: default: }], the received value is discarded. *)
Definition try_recv {A} (c : chan A) : chan A :=
  match buf c with
  | [] => c
  | _ :: rest => MkChan (cap c) rest
  end.

(** [c <- x] with no other goroutine around: the send waits for room that
    nobody will make. *)
Definition send {A} (c : chan A) (x : A) : outcome (chan A) :=
  if full c then Block else Ok (MkChan (cap c) (buf c ++ [x])).

(** The buffer never holds more than the capacity. *)
Definition chan_ok {A} (c : chan A) : Prop := length (buf c) ≤ cap c.

End Go.

Import Go.

(** ** IsRoundRobin *)

Section RoundRobin.
Context {SC : Type} `{Countable SC}.
(** The closure [f func() balancer.SubConn]: its captured variables are a
    state of type [St], a call returns a value and the next state. *)
Context {St : Type}.
Variable f : St → SC * St.

(** The closure's state and the number of times it has been called. *)
Record world : Type := World { pick_state : St; pick_calls : nat }.

Definition start (s : St) : world := World s 0.

(** [f()] *)
Definition call (w : world) : SC * world :=
  let '(got, s') := f (pick_state w) in
  (got, World s' (S (pick_calls w))).

(** [wantSet[k]]: a missing key reads as the zero value. *)
Definition map_get (m : gmap SC Z) (k : SC) : Z := default 0%Z (m !! k).

(** [wantSet[k]++] and [wantSet[k]--] *)
Definition map_incr (m : gmap SC Z) (k : SC) : gmap SC Z :=
  <[k := wrap_int (map_get m k + 1)]> m.
Definition map_decr (m : gmap SC Z) (k : SC) : gmap SC Z :=
  <[k := wrap_int (map_get m k - 1)]> m.

(** [for _, sc := range want { wantSet[sc]++ }] *)
Definition build_wantSet (want : list SC) : gmap SC Z :=
  foldl map_incr ∅ want.

(** The first iteration, [for range want { ... }]: [rest] is the part of
    [want] still to range over. *)
Fixpoint first_iteration (want rest : list SC) (wantSet : gmap SC Z)
    (gotSliceFirstIteration : list SC) (w : world)
    : (error SC + list SC) * world :=
  match rest with
  | [] => (inr gotSliceFirstIteration, w)
  | _ :: rest' =>
      let '(got, w) := call w in
      let gotSliceFirstIteration := gotSliceFirstIteration ++ [got] in
      let wantSet := map_decr wantSet got in
      if (map_get wantSet got <? 0)%Z then
        (inl (Errorf "non-roundrobin want: %v, result: %v"
                [want; gotSliceFirstIteration]), w)
      else first_iteration want rest' wantSet gotSliceFirstIteration w
  end.

(** [for _, w := range gotSliceFirstIteration { ... }] *)
Fixpoint second_inner (gotSliceFirstIteration rest : list SC)
    (gotSliceSecondIteration : list SC) (w : world)
    : (error SC + list SC) * world :=
  match rest with
  | [] => (inr gotSliceSecondIteration, w)
  | wv :: rest' =>
      let '(g, w) := call w in
      let gotSliceSecondIteration := gotSliceSecondIteration ++ [g] in
      if decide (wv ≠ g) then
        (inl (Errorf "non-roundrobin, first iter: %v, second iter: %v"
                [gotSliceFirstIteration; gotSliceSecondIteration]), w)
      else second_inner gotSliceFirstIteration rest' gotSliceSecondIteration w
  end.

(** [for i := 0; i < 2; i++ { ... }]: [todo] is [2 - i]. *)
Fixpoint second_iteration (todo : nat) (gotSliceFirstIteration : list SC)
    (gotSliceSecondIteration : list SC) (w : world)
    : option (error SC) * world :=
  match todo with
  | O => (None, w)
  | S todo' =>
      match second_inner gotSliceFirstIteration gotSliceFirstIteration
              gotSliceSecondIteration w with
      | (inl e, w) => (Some e, w)
      | (inr gotSliceSecondIteration, w) =>
          second_iteration todo' gotSliceFirstIteration
            gotSliceSecondIteration w
      end
  end.

(** [IsRoundRobin(want, f)]: the returned error ([None] is [nil]) and the
    closure afterwards. *)
Definition IsRoundRobin (want : list SC) (w : world)
    : option (error SC) * world :=
  let wantSet := build_wantSet want in
  match first_iteration want want wantSet [] w with
  | (inl e, w) => (Some e, w)
  | (inr gotSliceFirstIteration, w) =>
      second_iteration 2 gotSliceFirstIteration [] w
  end.

(** *** What the closure returns, independently of the checker *)

(** The values of the first [n] calls from state [s]. *)
Fixpoint picks (n : nat) (s : St) : list SC :=
  match n with
  | O => []
  | S n' => let '(got, s') := f s in got :: picks n' s'
  end.

(** The state after [n] calls. *)
Fixpoint after (n : nat) (s : St) : St :=
  match n with
  | O => s
  | S n' => after n' (f s).2
  end.

(** The closure and the call counter after [k] more calls. *)
Definition advance (k : nat) (w : world) : world :=
  World (after k (pick_state w)) (pick_calls w + k).

(** Number of occurrences of [x] in [l]. *)
Fixpoint occ (x : SC) (l : list SC) : nat :=
  match l with
  | [] => 0
  | y :: l' => (if decide (y = x) then 1 else 0) + occ x l'
  end.

(** The count left for [sc] once the values [picked] have been taken out
    of [want]. *)
Definition remaining (want picked : list SC) (sc : SC) : Z :=
  (Z.of_nat (occ sc want) - Z.of_nat (occ sc picked))%Z.

End RoundRobin.


(** ** The pool of pre-allocated SubConns *)

(** [const TestSubConnsCount = 16] *)
Definition TestSubConnsCount : Z := 16.

(** [type TestSubConn struct { id string }] *)
Record TestSubConn : Type := { id : string }.

(** A [balancer.SubConn] interface value: [nil], or a [*TestSubConn] given by
    the address of the object it points to. *)
Inductive balancer_SubConn : Type :=
| SubConn_nil
| SubConn_ptr (addr : nat).

Global Instance balancer_SubConn_eq_dec : EqDecision balancer_SubConn.
Proof. solve_decision. Defined.

Global Instance balancer_SubConn_countable : Countable balancer_SubConn.
Proof.
  refine (inj_countable'
    (λ sc, match sc with SubConn_nil => None | SubConn_ptr a => Some a end)
    (λ o, match o with None => SubConn_nil | Some a => SubConn_ptr a end) _).
  by intros [].
Defined.

(** The package-level memory: the allocated [TestSubConn] objects (the
    address of an object is its position) and the variable [TestSubConns]. *)
Record memory : Type :=
  { heap : list TestSubConn; var_TestSubConns : list balancer_SubConn }.

(** [&TestSubConn{id: s}] followed by [append(TestSubConns, _)] *)
Definition append_new (s : string) (m : memory) : memory :=
  let p := SubConn_ptr (length (heap m)) in
  {| heap := heap m ++ [{| id := s |}];
     var_TestSubConns := var_TestSubConns m ++ [p] |}.

(** [for i := 0; i < TestSubConnsCount; i++ { ... }] with
    [fmt.Sprintf("sc%d", i)]; [fuel] bounds the number of iterations. *)
Fixpoint init_loop (fuel : nat) (i : int) (m : memory) : option memory :=
  if (i <? TestSubConnsCount)%Z then
    match fuel with
    | O => None
    | S fuel' =>
        init_loop fuel' (wrap_int (i + 1)) (append_new ("sc" +:+ pretty i) m)
    end
  else Some m.

(** [func init()], run once on the empty memory. *)
Definition init : memory :=
  default {| heap := []; var_TestSubConns := [] |}
    (init_loop (Z.to_nat TestSubConnsCount) 0%Z
       {| heap := []; var_TestSubConns := [] |}).

(** [var TestSubConns []*TestSubConn] after package initialisation. *)
Definition TestSubConns : list balancer_SubConn := var_TestSubConns init.

(** [func (tsc *TestSubConn) UpdateAddresses([]resolver.Address)] *)
Definition UpdateAddresses {A} (tsc : balancer_SubConn) (a : list A)
    : outcome unit :=
  Panic (PanicString "not implemented").

(** [func (tsc *TestSubConn) Connect()] *)
Definition Connect (tsc : balancer_SubConn) : outcome unit := Ok ().

(** [func (tsc *TestSubConn) String() string] *)
Definition TestSubConn_String (m : memory) (tsc : balancer_SubConn) : outcome string :=
  match tsc with
  | SubConn_nil => Panic (PanicString "nil pointer dereference")
  | SubConn_ptr a =>
      match heap m !! a with
      | Some o => Ok (id o)
      | None => Panic (PanicString "nil pointer dereference")
      end
  end.

(** ** Stateful calls on an object of type [C] *)

Definition M (C A : Type) : Type := C → outcome (A * C).

Global Instance M_ret {C} : MRet (M C) := λ A a c, Ok (a, c).
Global Instance M_bind {C} : MBind (M C) := λ A B k m c,
  match m c with
  | Ok (a, c') => k a c'
  | Panic v => Panic v
  | Block => Block
  end.

Definition get {C} : M C C := λ c, Ok (c, c).
Definition put {C} (c : C) : M C unit := λ _, Ok ((), c).
Definition lift {C A} (o : outcome A) : M C A := λ c,
  match o with
  | Ok a => Ok (a, c)
  | Panic v => Panic v
  | Block => Block
  end.
Definition panic {C A} (msg : string) : M C A := λ _, Panic (PanicString msg).

(** The object after a call, when the call returned. *)
Definition exec {C A} (m : M C A) (c : C) : outcome C :=
  match m c with
  | Ok (_, c') => Ok c'
  | Panic v => Panic v
  | Block => Block
  end.

(** The calls [g x] for the elements [x] of [l], one after the other. *)
Fixpoint for_each {C A B} (g : A → M C B) (l : list A) : M C (list B) :=
  match l with
  | [] => mret []
  | x :: l' => r ← g x; rs ← for_each g l'; mret (r :: rs)
  end.

(** ** The mock client connection and the fixtures

    Types of the packages [resolver], [connectivity] and [balancer] that the
    file only passes around are parameters. *)

Section TestUtils.
Context {resolver_Address balancer_NewSubConnOptions : Type}.
Context {resolver_ResolveNowOptions balancer_SubConnState : Type}.
Context {balancer_BuildOptions balancer_PickInfo : Type}.
Context {connectivity_State balancer_Picker : Type}.
(** [connectivity.Ready] *)
Variable connectivity_Ready : connectivity_State.
(** [balancer.NewSubConnOptions{}] *)
Variable NewSubConnOptions_zero : balancer_NewSubConnOptions.

(** [balancer.State] *)
Record balancer_State : Type :=
  { ConnectivityState : connectivity_State; Picker : balancer_Picker }.

(** [resolver.State] and [balancer.ClientConnState], with the one field the
    file reads. *)
Record resolver_State : Type := { Addresses : list resolver_Address }.
Record balancer_ClientConnState : Type := { ResolverState : resolver_State }.

(** [balancer.PickResult]; [PickResult{}] has every field zero. *)
Record balancer_PickResult : Type := { SubConn : balancer_SubConn }.

(** Go's [error]: [None] is [nil]. *)
Definition go_error : Type := option (error balancer_SubConn).

(** What [tcc.logger.Logf] was asked to print, one entry per call:
    - ["testClientConn: NewSubConn(%v, %+v) => %s"] with [a], [o], [sc];
    - ["testClientCOnn: RemoveSubConn(%p)"] with [sc];
    - ["testClientConn: UpdateState(%v)"] with [bs]. *)
Inductive log_line : Type :=
| Log_NewSubConn (a : list resolver_Address) (o : balancer_NewSubConnOptions)
    (sc : balancer_SubConn)
| Log_RemoveSubConn (sc : balancer_SubConn)
| Log_UpdateState (bs : balancer_State).

(** [type TestClientConn struct]; [logger] is what has been logged through
    it so far. *)
Record TestClientConn : Type :=
  { logger : list log_line;
    NewSubConnAddrsCh : chan (list resolver_Address);
    NewSubConnCh : chan balancer_SubConn;
    RemoveSubConnCh : chan balancer_SubConn;
    NewPickerCh : chan balancer_Picker;
    NewStateCh : chan connectivity_State;
    subConnIdx : int }.

Definition set_logger (v : list log_line) (t : TestClientConn) :=
  {| logger := v; NewSubConnAddrsCh := NewSubConnAddrsCh t;
     NewSubConnCh := NewSubConnCh t; RemoveSubConnCh := RemoveSubConnCh t;
     NewPickerCh := NewPickerCh t; NewStateCh := NewStateCh t;
     subConnIdx := subConnIdx t |}.
Definition set_NewSubConnAddrsCh v (t : TestClientConn) :=
  {| logger := logger t; NewSubConnAddrsCh := v;
     NewSubConnCh := NewSubConnCh t; RemoveSubConnCh := RemoveSubConnCh t;
     NewPickerCh := NewPickerCh t; NewStateCh := NewStateCh t;
     subConnIdx := subConnIdx t |}.
Definition set_NewSubConnCh v (t : TestClientConn) :=
  {| logger := logger t; NewSubConnAddrsCh := NewSubConnAddrsCh t;
     NewSubConnCh := v; RemoveSubConnCh := RemoveSubConnCh t;
     NewPickerCh := NewPickerCh t; NewStateCh := NewStateCh t;
     subConnIdx := subConnIdx t |}.
Definition set_RemoveSubConnCh v (t : TestClientConn) :=
  {| logger := logger t; NewSubConnAddrsCh := NewSubConnAddrsCh t;
     NewSubConnCh := NewSubConnCh t; RemoveSubConnCh := v;
     NewPickerCh := NewPickerCh t; NewStateCh := NewStateCh t;
     subConnIdx := subConnIdx t |}.
Definition set_NewPickerCh v (t : TestClientConn) :=
  {| logger := logger t; NewSubConnAddrsCh := NewSubConnAddrsCh t;
     NewSubConnCh := NewSubConnCh t; RemoveSubConnCh := RemoveSubConnCh t;
     NewPickerCh := v; NewStateCh := NewStateCh t;
     subConnIdx := subConnIdx t |}.
Definition set_NewStateCh v (t : TestClientConn) :=
  {| logger := logger t; NewSubConnAddrsCh := NewSubConnAddrsCh t;
     NewSubConnCh := NewSubConnCh t; RemoveSubConnCh := RemoveSubConnCh t;
     NewPickerCh := NewPickerCh t; NewStateCh := v;
     subConnIdx := subConnIdx t |}.
Definition set_subConnIdx v (t : TestClientConn) :=
  {| logger := logger t; NewSubConnAddrsCh := NewSubConnAddrsCh t;
     NewSubConnCh := NewSubConnCh t; RemoveSubConnCh := RemoveSubConnCh t;
     NewPickerCh := NewPickerCh t; NewStateCh := NewStateCh t;
     subConnIdx := v |}.

(** [tcc.logger.Logf(...)] *)
Definition Logf (l : log_line) : M TestClientConn unit :=
  tcc ← get; put (set_logger (logger tcc ++ [l]) tcc).

(** [func NewTestClientConn(t *testing.T) *TestClientConn]; [t] is what
    the test has logged before. *)
Definition NewTestClientConn (t : list log_line) : TestClientConn :=
  {| logger := t;
     NewSubConnAddrsCh := make_chan 10;
     NewSubConnCh := make_chan 10;
     RemoveSubConnCh := make_chan 10;
     NewPickerCh := make_chan 1;
     NewStateCh := make_chan 1;
     subConnIdx := 0%Z |}.

(** [func (tcc *TestClientConn) NewSubConn(a, o) (balancer.SubConn, error)] *)
Definition NewSubConn (a : list resolver_Address)
    (o : balancer_NewSubConnOptions)
    : M TestClientConn (balancer_SubConn * go_error) :=
  tcc ← get;
  sc ← lift (index TestSubConns (subConnIdx tcc));
  put (set_subConnIdx (wrap_int (subConnIdx tcc + 1)) tcc);;
  Logf (Log_NewSubConn a o sc);;
  tcc ← get;
  put (set_NewSubConnAddrsCh (try_send (NewSubConnAddrsCh tcc) a) tcc);;
  tcc ← get;
  put (set_NewSubConnCh (try_send (NewSubConnCh tcc) sc) tcc);;
  mret (sc, None).

(** [func (tcc *TestClientConn) RemoveSubConn(sc balancer.SubConn)] *)
Definition RemoveSubConn (sc : balancer_SubConn) : M TestClientConn unit :=
  Logf (Log_RemoveSubConn sc);;
  tcc ← get;
  put (set_RemoveSubConnCh (try_send (RemoveSubConnCh tcc) sc) tcc).

(** [func (tcc *TestClientConn) UpdateBalancerState(s, p)] *)
Definition UpdateBalancerState (s : connectivity_State) (p : balancer_Picker)
    : M TestClientConn unit :=
  panic "not implemented".

(** [func (tcc *TestClientConn) UpdateState(bs balancer.State)] *)
Definition UpdateState (bs : balancer_State) : M TestClientConn unit :=
  Logf (Log_UpdateState bs);;
  tcc ← get;
  put (set_NewStateCh (try_recv (NewStateCh tcc)) tcc);;
  tcc ← get;
  c ← lift (send (NewStateCh tcc) (ConnectivityState bs));
  put (set_NewStateCh c tcc);;
  tcc ← get;
  put (set_NewPickerCh (try_recv (NewPickerCh tcc)) tcc);;
  tcc ← get;
  c ← lift (send (NewPickerCh tcc) (Picker bs));
  put (set_NewPickerCh c tcc).

(** [func (tcc *TestClientConn) ResolveNow(resolver.ResolveNowOptions)] *)
Definition ResolveNow (o : resolver_ResolveNowOptions)
    : M TestClientConn unit :=
  panic "not implemented".

(** [func (tcc *TestClientConn) Target() string] *)
Definition Target : M TestClientConn string :=
  panic "not implemented".

(** The interface [balancer.ClientConn], as the methods a balancer can call
    on the object [cc] it was built with. *)
Class ClientConn (C : Type) : Type :=
  { cc_NewSubConn : list resolver_Address → balancer_NewSubConnOptions →
                    M C (balancer_SubConn * go_error);
    cc_RemoveSubConn : balancer_SubConn → M C unit;
    cc_UpdateBalancerState : connectivity_State → balancer_Picker → M C unit;
    cc_UpdateState : balancer_State → M C unit;
    cc_ResolveNow : resolver_ResolveNowOptions → M C unit;
    cc_Target : M C string }.

Global Instance TestClientConn_ClientConn : ClientConn TestClientConn :=
  {| cc_NewSubConn := NewSubConn;
     cc_RemoveSubConn := RemoveSubConn;
     cc_UpdateBalancerState := UpdateBalancerState;
     cc_UpdateState := UpdateState;
     cc_ResolveNow := ResolveNow;
     cc_Target := Target |}.

(** [type TestConstPicker struct { Err error; SC balancer.SubConn }] *)
Record TestConstPicker : Type :=
  { Err : go_error; SC : balancer_SubConn }.

(** [var ErrTestConstPicker = fmt.Errorf("const picker error")] *)
Definition ErrTestConstPicker : error balancer_SubConn :=
  Errorf "const picker error" [].

(** [func (tcp *TestConstPicker) Pick(info) (balancer.PickResult, error)] *)
Definition Pick (tcp : TestConstPicker) (info : balancer_PickInfo)
    : balancer_PickResult * go_error :=
  if decide (Err tcp ≠ None) then ({| SubConn := SubConn_nil |}, Err tcp)
  else ({| SubConn := SC tcp |}, None).

(** A [*TestConstPicker] stored in a [balancer.Picker] interface value. *)
Variable Picker_of_TestConstPicker : TestConstPicker → balancer_Picker.

(** [type testConstBalancer struct { cc balancer.ClientConn }]: the
    methods act on the object [cc] points to. *)
Section testConstBalancer.
Context {C : Type} `{ClientConn C}.

(** [func (tb *testConstBalancer) UpdateSubConnState(sc, state)] *)
Definition UpdateSubConnState (sc : balancer_SubConn)
    (state : balancer_SubConnState) : M C unit :=
  cc_UpdateState
    {| ConnectivityState := connectivity_Ready;
       Picker := Picker_of_TestConstPicker
                   {| Err := Some ErrTestConstPicker;
                      SC := SubConn_nil |} |}.

(** [func (tb *testConstBalancer) ResolverError(error)] *)
Definition ResolverError (e : go_error) : M C unit :=
  panic "not implemented".

(** [func (tb *testConstBalancer) UpdateClientConnState(s) error] *)
Definition UpdateClientConnState (s : balancer_ClientConnState)
    : M C go_error :=
  if decide (length (Addresses (ResolverState s)) = 0) then mret None
  else
    cc_NewSubConn (Addresses (ResolverState s)) NewSubConnOptions_zero;;
    mret None.

(** Method [Close()] of [testConstBalancer] *)
Definition Close : M C unit := mret ().
End testConstBalancer.

(** Method [Name() string] of [TestConstBalancerBuilder] *)
Definition Name : string := "test-const-balancer".

(** The two single-slot channels are as [NewTestClientConn] made them, and
    hold no more than their slot. *)
Definition latest_ok (tcc : TestClientConn) : Prop :=
  cap (NewStateCh tcc) = 1 ∧ chan_ok (NewStateCh tcc) ∧
  cap (NewPickerCh tcc) = 1 ∧ chan_ok (NewPickerCh tcc).

(** Number of [NewSubConn] calls that went through the logger. *)
Definition is_NewSubConn_line (l : log_line) : bool :=
  match l with Log_NewSubConn _ _ _ => true | _ => false end.
Definition NewSubConn_calls (tcc : TestClientConn) : nat :=
  length (List.filter is_NewSubConn_line (logger tcc)).
End TestUtils.


(** ** testClosure *)

(** [a % b] on [int]: the remainder has the sign of [a]; a zero [b] is a
    run-time panic. *)
Definition int_rem (a b : int) : outcome int :=
  if (b =? 0)%Z then Panic (PanicString "integer divide by zero")
  else Ok (wrap_int (Z.rem a b)).

Module testClosure.

(** [type testClosure struct { r []balancer.SubConn; i int }] *)
Record t : Type := Make { r : list balancer_SubConn; i : int }.

(** [func (tc *testClosure) next() balancer.SubConn] *)
Definition next : M t balancer_SubConn :=
  tc ← get;
  ret ← lift (index (r tc) (i tc));
  i' ← lift (int_rem (wrap_int (i tc + 1)) (Z.of_nat (length (r tc))));
  put (Make (r tc) i');;
  mret ret.

(** The index is a position of the slice. *)
Definition in_range (tc : t) : Prop :=
  (0 ≤ i tc < Z.of_nat (length (r tc)))%Z.

End testClosure.

(** The method value [x.m] of a method that returns, passed where a
    [func() balancer.SubConn] is expected. Where the call does not return,
    neither does the caller, and the value given here is not looked at. *)
Definition method_value {C} (m : M C balancer_SubConn)
    : C → balancer_SubConn * C :=
  λ c, match m c with
       | Ok (x, c') => (x, c')
       | _ => (SubConn_nil, c)
       end.

(** ** Runs of method calls on a client connection *)

Section Calls.
Context {resolver_Address balancer_NewSubConnOptions : Type}.
Context {connectivity_State balancer_Picker : Type}.

(** One call of a method of [TestClientConn] that does not always panic. *)
Inductive method_call : Type :=
| Call_NewSubConn (a : list resolver_Address) (o : balancer_NewSubConnOptions)
| Call_RemoveSubConn (sc : balancer_SubConn)
| Call_UpdateState
    (bs : @balancer_State connectivity_State balancer_Picker).

Definition do_call (c : method_call)
    : M (@TestClientConn resolver_Address balancer_NewSubConnOptions
           connectivity_State balancer_Picker) unit :=
  match c with
  | Call_NewSubConn a o => NewSubConn a o;; mret ()
  | Call_RemoveSubConn sc => RemoveSubConn sc
  | Call_UpdateState bs => UpdateState bs
  end.

Definition is_Call_NewSubConn (c : method_call) : bool :=
  match c with Call_NewSubConn _ _ => true | _ => false end.

(** Number of [NewSubConn] calls in a run. *)
Definition creations (cs : list method_call) : nat :=
  length (List.filter is_Call_NewSubConn cs).

(** The channels have the capacities [NewTestClientConn] gave them and hold
    no more than that, and the cursor is a position of the pool or its
    length. *)
Definition conn_ok
    (tcc : @TestClientConn resolver_Address balancer_NewSubConnOptions
             connectivity_State balancer_Picker) : Prop :=
  (cap (NewSubConnAddrsCh tcc) = 10 ∧ chan_ok (NewSubConnAddrsCh tcc)) ∧
  (cap (NewSubConnCh tcc) = 10 ∧ chan_ok (NewSubConnCh tcc)) ∧
  (cap (RemoveSubConnCh tcc) = 10 ∧ chan_ok (RemoveSubConnCh tcc)) ∧
  latest_ok tcc ∧
  (0 ≤ subConnIdx tcc ≤ TestSubConnsCount)%Z.

(** The address lists of the updates that carry at least one address. *)
Definition with_addresses
    (ss : list (@balancer_ClientConnState resolver_Address))
    : list (list resolver_Address) :=
  List.filter (λ a, negb (Nat.eqb (length a) 0))
    ((λ s, Addresses (ResolverState s)) <$> ss).
End Calls.

(** ** Closures and values used in the examples *)

(** A closure that returns [a] at every call. *)
Definition always (a : balancer_SubConn) : unit → balancer_SubConn * unit :=
  λ s, (a, s).

(** A closure that walks round the slice [l] for ever, from position [k]. *)
Definition round (l : list balancer_SubConn) : nat → balancer_SubConn * nat :=
  λ k, (nth k l SubConn_nil, (k + 1) mod length l).

(** A client connection whose addresses are strings, and whose states and
    pickers are numbered. *)
Definition ExampleConn : Type := @TestClientConn string unit nat nat.

(** The [k]-th example address list and its options. *)
Definition example_arg (k : nat) : list string * unit := ([pretty k], ()).

(** A client connection on which ten SubConns were created and removed
    while nobody was receiving: the three history channels are full. *)
Definition full_conn : ExampleConn :=
  {| logger := [];
     NewSubConnAddrsCh := MkChan 10 ((λ k, [pretty k]) <$> seq 0 10);
     NewSubConnCh := MkChan 10 (take 10 TestSubConns);
     RemoveSubConnCh := MkChan 10 (take 10 TestSubConns);
     NewPickerCh := make_chan 1;
     NewStateCh := make_chan 1;
     subConnIdx := 10%Z |}.

(** A resolver update with one address. *)
Definition one_address : @balancer_ClientConnState string :=
  {| ResolverState := {| Addresses := ["10.0.0.1:443"] |} |}.

(** * Properties *)

(** ** Integers and channels *)

Lemma wrap_int_id (z : Z) :
  (int_min ≤ z ≤ int_max)%Z → wrap_int z = z.
Proof.
  unfold wrap_int, int_min, int_max. intros Hz.
  rewrite Z.mod_small; lia.
Qed.

(** ** The round-robin checker *)

Section RoundRobinFacts.
Context {SC : Type} `{Countable SC} {St : Type}.
Variable f : St → SC * St.

Implicit Types (want got p : list SC) (s : St) (w : @world St) (sc : SC).

Lemma call_eq w :
  call f w = ((f (pick_state w)).1, advance f 1 w).
Proof.
  unfold call, advance. simpl. destruct (f (pick_state w)) as [g s'].
  simpl. by rewrite Nat.add_1_r.
Qed.

Lemma picks_S n s : picks f (S n) s = (f s).1 :: picks f n (f s).2.
Proof. simpl. by destruct (f s). Qed.

Lemma picks_length n s : length (picks f n s) = n.
Proof.
  revert s. induction n as [|n IH]; intros s; [done|].
  rewrite picks_S. simpl. by rewrite IH.
Qed.

Lemma picks_add a b s :
  picks f (a + b) s = picks f a s ++ picks f b (after f a s).
Proof.
  revert s. induction a as [|a IH]; intros s; [done|].
  change (S a + b) with (S (a + b)). rewrite !picks_S, IH. done.
Qed.

Lemma after_add a b s : after f (a + b) s = after f b (after f a s).
Proof. revert s. induction a as [|a IH]; intros s; [done|]. simpl. apply IH. Qed.

Lemma take_picks k n s : k ≤ n → take k (picks f n s) = picks f k s.
Proof.
  intros Hk. replace n with (k + (n - k)) by lia.
  rewrite picks_add, take_app_length'; [done|]. by rewrite picks_length.
Qed.

Lemma advance_advance a b w :
  advance f b (advance f a w) = advance f (a + b) w.
Proof.
  unfold advance. simpl. rewrite after_add. f_equal. lia.
Qed.

(** *** Counting *)

Lemma occ_app sc l1 l2 : occ sc (l1 ++ l2) = occ sc l1 + occ sc l2.
Proof. induction l1 as [|y l1 IH]; simpl; [done|]. rewrite IH. lia. Qed.

Lemma occ_le_length sc l : occ sc l ≤ length l.
Proof. induction l as [|y l IH]; simpl; [done|]. case_decide; lia. Qed.

Lemma occ_elem_of sc l : 0 < occ sc l → sc ∈ l.
Proof.
  induction l as [|y l IH]; simpl; [lia|].
  case_decide as Hy; [subst; left | intros; right; apply IH; lia].
Qed.

Lemma occ_Permutation sc l1 l2 : l1 ≡ₚ l2 → occ sc l1 = occ sc l2.
Proof. induction 1; simpl; lia. Qed.

(** A list whose every element occurs at most as often as in [l2] is a
    sub-multiset of [l2]. *)
Lemma occ_le_submseteq l1 l2 :
  (∀ sc, occ sc l1 ≤ occ sc l2) → l1 ⊆+ l2.
Proof.
  revert l2. induction l1 as [|a l1 IH]; intros l2 Hle.
  { apply submseteq_nil_l. }
  assert (a ∈ l2) as Hin.
  { apply occ_elem_of. specialize (Hle a). simpl in Hle.
    rewrite decide_True in Hle by done. lia. }
  apply elem_of_Permutation in Hin as [l2' Hl2].
  rewrite Hl2. apply submseteq_skip, IH. intros sc.
  specialize (Hle sc). rewrite (occ_Permutation sc _ _ Hl2) in Hle.
  simpl in Hle. lia.
Qed.

Lemma occ_le_Permutation l1 l2 :
  length l1 = length l2 → (∀ sc, occ sc l1 ≤ occ sc l2) → l1 ≡ₚ l2.
Proof.
  intros Hlen Hle. apply submseteq_length_Permutation; [|lia].
  by apply occ_le_submseteq.
Qed.

(** *** The count map *)

Lemma map_get_incr (m : gmap SC Z) k sc :
  map_get (map_incr m k) sc =
  if decide (k = sc) then wrap_int (map_get m k + 1) else map_get m sc.
Proof.
  unfold map_get at 1, map_incr. case_decide as Hk.
  - subst. by rewrite lookup_insert_eq.
  - by rewrite lookup_insert_ne.
Qed.

Lemma map_get_decr (m : gmap SC Z) k sc :
  map_get (map_decr m k) sc =
  if decide (k = sc) then wrap_int (map_get m k - 1) else map_get m sc.
Proof.
  unfold map_get at 1, map_decr. case_decide as Hk.
  - subst. by rewrite lookup_insert_eq.
  - by rewrite lookup_insert_ne.
Qed.

(** After the counting loop the map holds the multiplicities of [want]. *)
Lemma build_wantSet_occ want sc :
  (Z.of_nat (length want) ≤ int_max)%Z →
  map_get (build_wantSet want) sc = Z.of_nat (occ sc want).
Proof.
  induction want as [|x want IH] using rev_ind; intros Hlen.
  { done. }
  rewrite length_app in Hlen. simpl in Hlen.
  unfold build_wantSet. rewrite foldl_snoc. fold (build_wantSet want).
  rewrite map_get_incr, occ_app. simpl.
  pose proof (occ_le_length x want) as Hx.
  case_decide as Hd.
  - subst x. rewrite IH by lia. rewrite wrap_int_id; [lia|].
    unfold int_min, int_max in *. lia.
  - rewrite IH by lia. lia.
Qed.

Lemma remaining_nil want sc : remaining want [] sc = Z.of_nat (occ sc want).
Proof. unfold remaining. simpl. lia. Qed.

Lemma remaining_snoc want got g sc :
  remaining want (got ++ [g]) sc =
  (remaining want got sc - if decide (g = sc) then 1 else 0)%Z.
Proof. unfold remaining. rewrite occ_app. simpl. case_decide; lia. Qed.

Lemma remaining_app_le want got p sc :
  (remaining want (got ++ p) sc ≤ remaining want got sc)%Z.
Proof. unfold remaining. rewrite occ_app. lia. Qed.

Lemma remaining_le_length want got sc :
  (remaining want got sc ≤ Z.of_nat (length want))%Z.
Proof. unfold remaining. pose proof (occ_le_length sc want). lia. Qed.

Lemma advance_0 w : advance f 0 w = w.
Proof. destruct w. unfold advance. simpl. f_equal. lia. Qed.

(** *** The first iteration *)

(** Run from a map that holds the remaining counts, the first loop either
    appends all the values picked, none of which was one too many, or stops
    at the first value that is. *)
Lemma first_iteration_inv want :
  (Z.of_nat (length want) ≤ int_max)%Z →
  ∀ rest (m : gmap SC Z) got w,
    (∀ sc, map_get m sc = remaining want got sc) →
    (∀ sc, (0 ≤ remaining want got sc)%Z) →
    let p := picks f (length rest) (pick_state w) in
    match first_iteration f want rest m got w with
    | (inr g, w') =>
        g = got ++ p ∧ w' = advance f (length rest) w ∧
        ∀ sc, (0 ≤ remaining want (got ++ p) sc)%Z
    | (inl e, w') =>
        ∃ k g, p !! k = Some g ∧
          (∀ sc, (0 ≤ remaining want (got ++ take k p) sc)%Z) ∧
          (remaining want (got ++ take (S k) p) g < 0)%Z ∧
          e = Errorf "non-roundrobin want: %v, result: %v"
                [want; got ++ take (S k) p] ∧
          w' = advance f (S k) w
    end.
Proof.
  intros Hlen rest. induction rest as [|x rest IH]; intros m got w Hm Hpos.
  { simpl. rewrite app_nil_r, advance_0. done. }
  cbn zeta. simpl length. rewrite picks_S.
  simpl first_iteration. rewrite call_eq.
  set (g0 := (f (pick_state w)).1).
  rewrite map_get_decr, decide_True by done.
  assert (wrap_int (map_get m g0 - 1) = remaining want got g0 - 1)%Z as ->.
  { rewrite Hm. apply wrap_int_id.
    pose proof (Hpos g0). pose proof (remaining_le_length want got g0).
    unfold int_min, int_max in *. lia. }
  destruct (Z.ltb_spec (remaining want got g0 - 1) 0) as [Hneg|Hok].
  - exists 0, g0. simpl. rewrite app_nil_r.
    split_and!; [done|done| |done|done].
    rewrite remaining_snoc, decide_True by done. lia.
  - assert (∀ sc, map_get (map_decr m g0) sc = remaining want (got ++ [g0]) sc)
      as Hm'.
    { intros sc. rewrite map_get_decr, remaining_snoc.
      case_decide; [subst sc; rewrite Hm|]; [|by rewrite Hm; lia].
      apply wrap_int_id.
      pose proof (Hpos g0). pose proof (remaining_le_length want got g0).
      unfold int_min, int_max in *. lia. }
    assert (∀ sc, (0 ≤ remaining want (got ++ [g0]) sc)%Z) as Hpos'.
    { intros sc. rewrite remaining_snoc. case_decide; [subst sc; lia|].
      pose proof (Hpos sc). lia. }
    specialize (IH (map_decr m g0) (got ++ [g0]) (advance f 1 w) Hm' Hpos').
    cbn zeta in IH. simpl pick_state in IH.
    destruct (first_iteration f want rest (map_decr m g0) (got ++ [g0])
                (advance f 1 w)) as [[e|g] w'].
    + destruct IH as (k & g & Hk & Hpre & Hbad & -> & ->).
      exists (S k), g. simpl. rewrite <- !app_assoc in *. simpl in *.
      rewrite advance_advance. done.
    + destruct IH as (-> & -> & Hall).
      rewrite <- !app_assoc in *. simpl in *.
      rewrite advance_advance. done.
Qed.

(** *** The second iteration *)

(** One pass over the first iteration either sees it again, value by value,
    or stops at the first value that differs. *)
Lemma second_inner_inv (first : list SC) :
  ∀ rest second w,
    let q := picks f (length rest) (pick_state w) in
    match second_inner f first rest second w with
    | (inr sec, w') =>
        q = rest ∧ sec = second ++ q ∧ w' = advance f (length rest) w
    | (inl e, w') =>
        ∃ k wv g, rest !! k = Some wv ∧ q !! k = Some g ∧ wv ≠ g ∧
          take k q = take k rest ∧
          e = Errorf "non-roundrobin, first iter: %v, second iter: %v"
                [first; second ++ take (S k) q] ∧
          w' = advance f (S k) w
    end.
Proof.
  intros rest. induction rest as [|wv rest IH]; intros second w.
  { simpl. rewrite app_nil_r, advance_0. done. }
  cbn zeta. simpl length. rewrite picks_S.
  simpl second_inner. rewrite call_eq.
  set (g0 := (f (pick_state w)).1).
  case_decide as Hne.
  - exists 0, wv, g0. simpl. done.
  - subst wv.
    specialize (IH (second ++ [g0]) (advance f 1 w)).
    cbn zeta in IH. simpl pick_state in IH.
    destruct (second_inner f first rest (second ++ [g0]) (advance f 1 w))
      as [[e|sec] w'].
    + destruct IH as (k & wv & g & Hr & Hq & Hne & Htake & -> & ->).
      exists (S k), wv, g. simpl. rewrite <- !app_assoc. simpl.
      rewrite advance_advance, Htake. done.
    + destruct IH as (-> & -> & ->).
      rewrite <- !app_assoc. simpl. rewrite advance_advance. done.
Qed.

Lemma second_iteration_two (first : list SC) w :
  let n := length first in
  match second_iteration f 2 first [] w with
  | (None, w') =>
      picks f n (pick_state w) = first ∧
      picks f n (after f n (pick_state w)) = first ∧
      w' = advance f (n + n) w
  | (Some e, w') =>
      ¬ (picks f n (pick_state w) = first ∧
         picks f n (after f n (pick_state w)) = first)
  end.
Proof.
  cbn zeta. simpl second_iteration.
  pose proof (second_inner_inv first first [] w) as H1. cbn zeta in H1.
  destruct (second_inner f first first [] w) as [[e|sec] w1].
  { destruct H1 as (k & wv & g & Hr & Hq & Hne & _).
    intros [Heq _]. rewrite Heq in Hq. congruence. }
  destruct H1 as (Heq & -> & ->).
  pose proof (second_inner_inv first first
                ([] ++ picks f (length first) (pick_state w))
                (advance f (length first) w)) as H2.
  cbn zeta in H2. simpl pick_state in H2.
  destruct (second_inner f first first _ (advance f (length first) w))
    as [[e|sec] w2].
  { destruct H2 as (k & wv & g & Hr & Hq & Hne & _).
    intros [_ Heq2]. rewrite Heq2 in Hq. congruence. }
  destruct H2 as (Heq2 & -> & ->).
  rewrite advance_advance. done.
Qed.

(** Two lists that follow [a] repeat it exactly when every position of
    theirs holds what [a] holds at that position modulo the length. *)
Lemma repeats_lookup (a b c : list SC) n :
  length a = n → length b = n → length c = n →
  (b = a ∧ c = a) ↔
  (∀ i, i < 2 * n →
        (a ++ b ++ c) !! (n + i) = (a ++ b ++ c) !! (i mod n)).
Proof.
  intros Ha Hb Hc.
  assert (∀ i, i < n → (a ++ b ++ c) !! i = a !! i) as La.
  { intros i Hi. apply lookup_app_l. lia. }
  assert (∀ i, i < n → (a ++ b ++ c) !! (n + i) = b !! i) as Lb.
  { intros i Hi. rewrite lookup_app_r by lia.
    rewrite lookup_app_l by lia. f_equal. lia. }
  assert (∀ i, i < n → (a ++ b ++ c) !! (n + (n + i)) = c !! i) as Lc.
  { intros i Hi. rewrite lookup_app_r by lia.
    rewrite lookup_app_r by lia. f_equal. lia. }
  split.
  - intros [-> ->] i Hi. destruct (decide (i < n)) as [Hlt|Hge].
    + rewrite Nat.mod_small by done. by rewrite Lb, La.
    + replace i with (n + (i - n)) at 1 by lia.
      replace (i mod n) with (i - n).
      { rewrite Lc, La by lia. done. }
      replace i with ((i - n) + 1 * n) at 2 by lia.
      rewrite Nat.Div0.mod_add. symmetry. apply Nat.mod_small. lia.
  - intros Hrep. split; apply list_eq; intros i.
    + destruct (decide (i < n)) as [Hlt|Hge].
      * rewrite <- Lb, <- La by done. rewrite (Hrep i) by lia.
        by rewrite Nat.mod_small.
      * rewrite !lookup_ge_None_2 by lia. done.
    + destruct (decide (i < n)) as [Hlt|Hge].
      * rewrite <- Lc, <- La by done. rewrite (Hrep (n + i)) by lia.
        replace (n + i) with (i + 1 * n) by lia.
        rewrite Nat.Div0.mod_add. by rewrite Nat.mod_small.
      * rewrite !lookup_ge_None_2 by lia. done.
Qed.

Lemma remaining_take_ge want p k sc :
  (remaining want p sc ≤ remaining want (take k p) sc)%Z.
Proof.
  rewrite <- (take_drop k p) at 1. apply remaining_app_le.
Qed.

Lemma remaining_Permutation want p sc :
  p ≡ₚ want → remaining want p sc = 0%Z.
Proof. intros Hp. unfold remaining. rewrite (occ_Permutation sc _ _ Hp). lia. Qed.

Lemma first_iteration_start want s :
  (Z.of_nat (length want) ≤ int_max)%Z →
  let p := picks f (length want) s in
  match first_iteration f want want (build_wantSet want) [] (start s) with
  | (inr g, w') =>
      g = p ∧ w' = advance f (length want) (start s) ∧
      ∀ sc, (0 ≤ remaining want p sc)%Z
  | (inl e, w') =>
      ∃ k g, p !! k = Some g ∧
        (∀ sc, (0 ≤ remaining want (take k p) sc)%Z) ∧
        (remaining want (take (S k) p) g < 0)%Z ∧
        e = Errorf "non-roundrobin want: %v, result: %v"
              [want; take (S k) p] ∧
        w' = advance f (S k) (start s)
  end.
Proof.
  intros Hlen.
  apply (first_iteration_inv want Hlen want (build_wantSet want) [] (start s)).
  - intros sc. by rewrite build_wantSet_occ, remaining_nil.
  - intros sc. rewrite remaining_nil. lia.
Qed.

(** C1. [IsRoundRobin(want, f)] returns [nil] exactly when the first
    [len(want)] values returned by [f] are a permutation of [want] (so that
    no remaining count goes negative while they are picked) and each of the
    next [2 * len(want)] values equals the value recorded at the same
    position modulo [len(want)]; when it returns [nil], [f] has been called
    [3 * len(want)] times. *)
Theorem IsRoundRobin_nil_iff want s :
  (Z.of_nat (length want) ≤ int_max)%Z →
  let n := length want in
  let p := picks f (3 * n) s in
  let r := IsRoundRobin f want (start s) in
  (r.1 = None ↔
     take n p ≡ₚ want ∧
     (∀ k g, k < n → p !! k = Some g →
             (0 ≤ remaining want (take (S k) p) g)%Z) ∧
     (∀ i, i < 2 * n → p !! (n + i) = p !! (i mod n)))
  ∧ (r.1 = None → pick_calls r.2 = 3 * n).
Proof.
  intros Hlen n p r.
  set (a := picks f n s).
  set (b := picks f n (after f n s)).
  set (c := picks f n (after f n (after f n s))).
  assert (length a = n ∧ length b = n ∧ length c = n) as (La & Lb & Lc).
  { unfold a, b, c. by rewrite !picks_length. }
  assert (p = a ++ b ++ c) as Hp.
  { unfold p. replace (3 * n) with (n + (n + n)) by lia.
    by rewrite !picks_add. }
  assert (take n p = a) as Htake.
  { rewrite Hp. by apply take_app_length'. }
  pose proof (repeats_lookup a b c n La Lb Lc) as Hrep. rewrite <- Hp in Hrep.
  pose proof (first_iteration_start want s Hlen) as H1. cbn zeta in H1.
  fold n a in H1. unfold r, IsRoundRobin.
  destruct (first_iteration f want want (build_wantSet want) [] (start s))
    as [[e|g] w1].
  { destruct H1 as (k & g & Hk & _ & Hbad & _ & _).
    split; [split; [done|] | done]. intros (Hperm & _ & _).
    rewrite Htake in Hperm.
    pose proof (remaining_take_ge want a (S k) g) as Hge.
    rewrite (remaining_Permutation want a g Hperm) in Hge. lia. }
  destruct H1 as (-> & -> & Hall).
  pose proof (second_iteration_two a (advance f n (start s))) as H2.
  cbn zeta in H2. rewrite La in H2. simpl pick_state in H2. fold b c in H2.
  destruct (second_iteration f 2 a [] (advance f n (start s)))
    as [[e|] w2]; simpl.
  { split; [split; [done|] | done]. intros (_ & _ & Hr).
    destruct H2. by apply Hrep. }
  destruct H2 as (Hb & Hc & ->). split; [|intros _; simpl; lia].
  split; [intros _|done]. split_and!.
  - rewrite Htake. apply occ_le_Permutation; [lia|].
    intros sc. specialize (Hall sc). unfold remaining in Hall. lia.
  - intros k g Hk Hg.
    replace (take (S k) p) with (take (S k) a).
    { pose proof (remaining_take_ge want a (S k) g). specialize (Hall g). lia. }
    rewrite Hp. symmetry. apply take_app_le. lia.
  - by apply Hrep.
Qed.

(** The first loop stops at the first pick that is one too many. *)
Lemma first_iteration_stops want s k g :
  (Z.of_nat (length want) ≤ int_max)%Z →
  let p := picks f (length want) s in
  p !! k = Some g →
  (∀ j g', j < k → p !! j = Some g' →
           (0 ≤ remaining want (take (S j) p) g')%Z) →
  (remaining want (take (S k) p) g < 0)%Z →
  first_iteration f want want (build_wantSet want) [] (start s) =
  (inl (Errorf "non-roundrobin want: %v, result: %v" [want; take (S k) p]),
   advance f (S k) (start s)).
Proof.
  intros Hlen p Hk Hfirst Hbad.
  pose proof (first_iteration_start want s Hlen) as H1. cbn zeta in H1.
  fold p in H1.
  destruct (first_iteration f want want (build_wantSet want) [] (start s))
    as [[e|g1] w1].
  - destruct H1 as (k' & g' & Hk' & Hpre & Hbad' & -> & ->).
    assert (k' = k) as ->; [|done].
    destruct (Nat.lt_trichotomy k' k) as [Hlt|[Heq|Hgt]]; [|done|].
    + specialize (Hfirst k' g' Hlt Hk'). lia.
    + pose proof (remaining_take_ge want (take k' p) (S k) g) as Hge.
      rewrite take_take, Nat.min_l in Hge by lia.
      specialize (Hpre g). lia.
  - destruct H1 as (_ & _ & Hall).
    pose proof (remaining_take_ge want p (S k) g). specialize (Hall g). lia.
Qed.

(** C7. When, during the first iteration, the count left for the value
    picked by call number [k] (counting from 0) is the first to go
    negative, [IsRoundRobin] returns at once: [f] has been called [k + 1]
    times and no more, and the error carries [want] and the values picked
    so far, the offending one included. *)
Theorem IsRoundRobin_first_negative want s k g :
  (Z.of_nat (length want) ≤ int_max)%Z →
  let p := picks f (length want) s in
  p !! k = Some g →
  (∀ j g', j < k → p !! j = Some g' →
           (0 ≤ remaining want (take (S j) p) g')%Z) →
  (remaining want (take (S k) p) g < 0)%Z →
  IsRoundRobin f want (start s) =
  (Some (Errorf "non-roundrobin want: %v, result: %v" [want; picks f (S k) s]),
   World (after f (S k) s) (S k)).
Proof.
  intros Hlen p Hk Hfirst Hbad. unfold IsRoundRobin.
  rewrite (first_iteration_stops want s k g Hlen Hk Hfirst Hbad).
  fold p. unfold p at 1. rewrite take_picks; [done|].
  apply lookup_lt_Some in Hk. unfold p in Hk. rewrite picks_length in Hk. lia.
Qed.
End RoundRobinFacts.

(** With [want = {a, a, b}] and a closure that always returns [a], the
    third call is one [a] too many: the check fails there, after three
    calls. *)
Lemma IsRoundRobin_extra_element {SC} `{Countable SC} {St} (a b : SC) (s : St) :
  a ≠ b →
  IsRoundRobin (λ s, (a, s)) [a; a; b] (start s) =
  (Some (Errorf "non-roundrobin want: %v, result: %v"
           [[a; a; b]; [a; a; a]]),
   World s 3).
Proof.
  intros Hab. unfold IsRoundRobin.
  rewrite (first_iteration_stops (λ s, (a, s)) [a; a; b] s 2 a); [done|..].
  - simpl. unfold int_max. lia.
  - done.
  - intros j g' Hj Hg'. unfold remaining.
    destruct j as [|[|j]]; [| |lia]; simpl in *; simplify_eq;
      repeat case_decide; simplify_eq; lia.
  - unfold remaining. simpl. repeat case_decide; simplify_eq; lia.
Qed.

(** ** Channels *)

Lemma full_spec {A} (c : chan A) : full c = true ↔ cap c ≤ length (buf c).
Proof. unfold full. apply bool_decide_eq_true. Qed.

Lemma try_send_full {A} (c : chan A) x : full c = true → try_send c x = c.
Proof. unfold try_send. by intros ->. Qed.

Lemma try_send_room {A} (c : chan A) x :
  full c = false → try_send c x = MkChan (cap c) (buf c ++ [x]).
Proof. unfold try_send. by intros ->. Qed.

Lemma try_send_ok {A} (c : chan A) x : chan_ok c → chan_ok (try_send c x).
Proof.
  unfold chan_ok, try_send. destruct (full c) eqn:Hf; [done|].
  apply bool_decide_eq_false in Hf. simpl. rewrite length_app. simpl. lia.
Qed.

(** Sending a run of values without ever receiving keeps the values that
    found room: the oldest ones. *)
Lemma try_send_many {A} (xs : list A) (c : chan A) :
  chan_ok c →
  foldl try_send c xs = MkChan (cap c) (take (cap c) (buf c ++ xs)).
Proof.
  revert c. induction xs as [|x xs IH]; intros c Hc.
  { simpl. rewrite app_nil_r, take_ge by done. by destruct c. }
  simpl. rewrite IH by by apply try_send_ok.
  unfold try_send. destruct (full c) eqn:Hf; simpl.
  - apply bool_decide_eq_true in Hf.
    rewrite !take_app_le by lia. done.
  - by rewrite <- app_assoc.
Qed.

(** Emptying the slot and then sending never waits, and leaves the value
    sent alone in a one-slot channel. *)
Lemma drain_then_send {A} (c : chan A) x :
  cap c = 1 → chan_ok c → send (try_recv c) x = Ok (MkChan 1 [x]).
Proof.
  unfold chan_ok, send, try_recv, full. destruct c as [n [|y [|z l]]];
    simpl; intros -> Hok; try done. lia.
Qed.

(** ** The pool *)

(** The initialisation loop ends by its own test, with sixteen objects. *)
Lemma init_loop_done :
  init_loop (Z.to_nat TestSubConnsCount) 0%Z
    {| heap := []; var_TestSubConns := [] |} = Some init.
Proof. reflexivity. Qed.

Lemma TestSubConns_eq : TestSubConns = SubConn_ptr <$> seq 0 16.
Proof. reflexivity. Qed.

Lemma TestSubConns_length : length TestSubConns = 16.
Proof. reflexivity. Qed.

(** The handles print as [sc0], ..., [sc15]. *)
Lemma TestSubConns_ids :
  TestSubConn_String init <$> TestSubConns
  = (λ i : nat, Ok ("sc" +:+ pretty i)) <$> seq 0 16.
Proof. vm_compute. reflexivity. Qed.

Lemma index_in_range {A} (l : list A) (i : Z) x :
  (0 ≤ i)%Z → l !! Z.to_nat i = Some x → index l i = Ok x.
Proof.
  intros Hi Hx. unfold index. destruct (Z.ltb_spec i 0); [lia|]. by rewrite Hx.
Qed.

Lemma index_out_of_range {A} (l : list A) (i : Z) :
  (Z.of_nat (length l) ≤ i)%Z → index l i = Panic (IndexOutOfRange i (length l)).
Proof.
  intros Hi. unfold index. destruct (Z.ltb_spec i 0); [done|].
  rewrite lookup_ge_None_2; [done|lia].
Qed.

(** ** The mock client connection *)

Section TestClientConnFacts.
Context {resolver_Address balancer_NewSubConnOptions : Type}.
Context {resolver_ResolveNowOptions : Type}.
Context {connectivity_State balancer_Picker : Type}.

Local Abbreviation TCC := (@TestClientConn resolver_Address balancer_NewSubConnOptions
                   connectivity_State balancer_Picker).
Local Abbreviation new_sub_conn :=
  (λ ao : list resolver_Address * balancer_NewSubConnOptions,
     NewSubConn (connectivity_State := connectivity_State)
       (balancer_Picker := balancer_Picker) ao.1 ao.2).

Implicit Types (tcc : TCC) (a : list resolver_Address)
  (o : balancer_NewSubConnOptions) (sc : balancer_SubConn).

Lemma NewSubConn_eq a o tcc :
  NewSubConn a o tcc =
  match index TestSubConns (subConnIdx tcc) with
  | Ok sc =>
      Ok ((sc, None),
          {| logger := logger tcc ++ [Log_NewSubConn a o sc];
             NewSubConnAddrsCh := try_send (NewSubConnAddrsCh tcc) a;
             NewSubConnCh := try_send (NewSubConnCh tcc) sc;
             RemoveSubConnCh := RemoveSubConnCh tcc;
             NewPickerCh := NewPickerCh tcc;
             NewStateCh := NewStateCh tcc;
             subConnIdx := wrap_int (subConnIdx tcc + 1) |})
  | Panic v => Panic v
  | Block => Block
  end.
Proof.
  unfold NewSubConn, mbind, M_bind, lift, get. simpl.
  by destruct (index TestSubConns (subConnIdx tcc)).
Qed.

Lemma RemoveSubConn_eq sc tcc :
  RemoveSubConn sc tcc =
  Ok ((), {| logger := logger tcc ++ [Log_RemoveSubConn sc];
             NewSubConnAddrsCh := NewSubConnAddrsCh tcc;
             NewSubConnCh := NewSubConnCh tcc;
             RemoveSubConnCh := try_send (RemoveSubConnCh tcc) sc;
             NewPickerCh := NewPickerCh tcc;
             NewStateCh := NewStateCh tcc;
             subConnIdx := subConnIdx tcc |}).
Proof. reflexivity. Qed.

Lemma UpdateState_eq (bs : balancer_State) tcc :
  latest_ok tcc →
  UpdateState bs tcc =
  Ok ((), {| logger := logger tcc ++ [Log_UpdateState bs];
             NewSubConnAddrsCh := NewSubConnAddrsCh tcc;
             NewSubConnCh := NewSubConnCh tcc;
             RemoveSubConnCh := RemoveSubConnCh tcc;
             NewPickerCh := MkChan 1 [Picker bs];
             NewStateCh := MkChan 1 [ConnectivityState bs];
             subConnIdx := subConnIdx tcc |}).
Proof.
  intros (Hs & Hsok & Hp & Hpok).
  unfold UpdateState, mbind, M_bind, lift, get. simpl.
  rewrite (drain_then_send (NewStateCh tcc)) by done. simpl.
  rewrite (drain_then_send (NewPickerCh tcc)) by done. done.
Qed.

Lemma for_each_cons {C A B} (g : A → M C B) x l c :
  for_each g (x :: l) c =
  match g x c with
  | Ok (r, c') =>
      match for_each g l c' with
      | Ok (rs, c'') => Ok (r :: rs, c'')
      | Panic v => Panic v
      | Block => Block
      end
  | Panic v => Panic v
  | Block => Block
  end.
Proof.
  simpl. unfold mbind, M_bind. destruct (g x c) as [[r c']| |]; [|done..].
  by destruct (for_each g l c') as [[rs c'']| |].
Qed.

(** A run of [NewSubConn] calls that stays within the pool: the handles
    come out in pool order from the cursor on, every call is logged, and
    the two history channels are offered every event. *)
Lemma NewSubConn_many (args : list (list resolver_Address * balancer_NewSubConnOptions)) :
  ∀ tcc,
    (0 ≤ subConnIdx tcc)%Z →
    (subConnIdx tcc + Z.of_nat (length args) ≤ 16)%Z →
    let scs := take (length args)
                 (drop (Z.to_nat (subConnIdx tcc)) TestSubConns) in
    for_each new_sub_conn args tcc =
    Ok ((λ sc, (sc, None)) <$> scs,
        {| logger := logger tcc ++
                     zip_with (λ ao sc, Log_NewSubConn ao.1 ao.2 sc) args scs;
           NewSubConnAddrsCh := foldl try_send (NewSubConnAddrsCh tcc) (args.*1);
           NewSubConnCh := foldl try_send (NewSubConnCh tcc) scs;
           RemoveSubConnCh := RemoveSubConnCh tcc;
           NewPickerCh := NewPickerCh tcc;
           NewStateCh := NewStateCh tcc;
           subConnIdx := (subConnIdx tcc + Z.of_nat (length args))%Z |}).
Proof.
  induction args as [|[a o] args IH]; intros tcc Hlo Hhi.
  { destruct tcc. simpl. unfold mret, M_ret. simpl.
    by rewrite app_nil_r, Z.add_0_r. }
  simpl length in *. cbn zeta.
  destruct (lookup_lt_is_Some_2 TestSubConns (Z.to_nat (subConnIdx tcc)))
    as [sc0 Hsc0].
  { rewrite TestSubConns_length. lia. }
  rewrite for_each_cons. cbn beta. simpl fst. simpl snd.
  rewrite NewSubConn_eq, (index_in_range _ _ sc0) by done.
  rewrite wrap_int_id by (unfold int_min, int_max; lia).
  rewrite IH; simpl subConnIdx; [|lia..].
  replace (Z.to_nat (subConnIdx tcc + 1)) with (S (Z.to_nat (subConnIdx tcc)))
    by lia.
  rewrite (drop_S _ _ _ Hsc0). simpl.
  rewrite <- app_assoc. simpl.
  do 3 f_equal. lia.
Qed.

Lemma latest_ok_fresh t : latest_ok (NewTestClientConn t : TCC).
Proof. unfold latest_ok, chan_ok. simpl. lia. Qed.

Lemma latest_ok_NewSubConn a o tcc r tcc' :
  latest_ok tcc → NewSubConn a o tcc = Ok (r, tcc') → latest_ok tcc'.
Proof.
  intros Hok. rewrite NewSubConn_eq.
  destruct (index TestSubConns (subConnIdx tcc)); [|done..].
  intros [= <- <-]. done.
Qed.

Lemma latest_ok_RemoveSubConn sc tcc r tcc' :
  latest_ok tcc → RemoveSubConn sc tcc = Ok (r, tcc') → latest_ok tcc'.
Proof. intros Hok. rewrite RemoveSubConn_eq. intros [= <- <-]. done. Qed.

Lemma latest_ok_UpdateState (bs : balancer_State) tcc r tcc' :
  latest_ok tcc → UpdateState bs tcc = Ok (r, tcc') → latest_ok tcc'.
Proof.
  intros Hok. rewrite UpdateState_eq by done. intros [= <- <-].
  unfold latest_ok, chan_ok. simpl. lia.
Qed.

(** With nobody receiving, the history channels of a new client connection
    hold the first ten events of a run of [NewSubConn] calls. *)
Lemma NewSubConn_history t
    (args : list (list resolver_Address * balancer_NewSubConnOptions)) :
  (Z.of_nat (length args) ≤ TestSubConnsCount)%Z →
  ∃ rs tcc',
    for_each new_sub_conn args (NewTestClientConn t) = Ok (rs, tcc') ∧
    buf (NewSubConnAddrsCh tcc') = take 10 (args.*1) ∧
    buf (NewSubConnCh tcc') = take 10 (take (length args) TestSubConns).
Proof.
  intros Hlen. unfold TestSubConnsCount in Hlen.
  eexists _, _. split.
  { apply NewSubConn_many; simpl; lia. }
  simpl. rewrite !try_send_many by (unfold chan_ok; simpl; lia). done.
Qed.

(** C6. On a new client connection, [N] calls of [NewSubConn] in a row,
    with [N] at most [TestSubConnsCount], return the first [N] handles of
    [TestSubConns] in the order of their indices, each with a [nil]
    error. *)
Theorem NewSubConn_in_pool_order t
    (args : list (list resolver_Address * balancer_NewSubConnOptions)) :
  (Z.of_nat (length args) ≤ TestSubConnsCount)%Z →
  ∃ tcc',
    for_each new_sub_conn args (NewTestClientConn t) =
    Ok ((λ sc, (sc, None)) <$> take (length args) TestSubConns, tcc').
Proof.
  intros Hlen. unfold TestSubConnsCount in Hlen. eexists.
  rewrite NewSubConn_many; simpl; [done|lia..].
Qed.

(** C10. Once [NewSubConn] has been called [TestSubConnsCount] times on a
    new client connection, the cursor is 16, and the next call panics with
    an index out of range; it returns neither a handle nor an error. *)
Theorem NewSubConn_exhausted_pool_panics t
    (args : list (list resolver_Address * balancer_NewSubConnOptions)) a o :
  Z.of_nat (length args) = TestSubConnsCount →
  ∃ rs tcc',
    for_each new_sub_conn args (NewTestClientConn t) = Ok (rs, tcc') ∧
    subConnIdx tcc' = 16%Z ∧
    NewSubConn a o tcc' = Panic (IndexOutOfRange 16 16).
Proof.
  intros Hlen. unfold TestSubConnsCount in Hlen. eexists _, _. split.
  { apply NewSubConn_many; simpl; lia. }
  simpl. split; [lia|].
  rewrite NewSubConn_eq. simpl. rewrite Hlen. reflexivity.
Qed.

(** From the cursor's value on: past the pool, every call panics. *)
Lemma NewSubConn_past_pool a o tcc :
  (TestSubConnsCount ≤ subConnIdx tcc)%Z →
  NewSubConn a o tcc = Panic (IndexOutOfRange (subConnIdx tcc) 16).
Proof.
  intros Hi. rewrite NewSubConn_eq, index_out_of_range; [done|].
  rewrite TestSubConns_length. unfold TestSubConnsCount in Hi. lia.
Qed.

(** C4. A push on a full history channel drops the new event and leaves
    the channel as it was; the push does not wait and reports no error:
    [RemoveSubConn] always returns, and [NewSubConn] returns its handle with
    a [nil] error whenever the cursor is within the pool. *)
Theorem push_on_full_queue_drops_new_event tcc a o sc :
  (∃ tcc', RemoveSubConn sc tcc = Ok ((), tcc') ∧
     (full (RemoveSubConnCh tcc) = true →
      RemoveSubConnCh tcc' = RemoveSubConnCh tcc)) ∧
  NewSubConn a o tcc ≠ Block ∧
  ((0 ≤ subConnIdx tcc < TestSubConnsCount)%Z →
   ∃ h tcc', NewSubConn a o tcc = Ok ((h, None), tcc') ∧
     (full (NewSubConnAddrsCh tcc) = true →
      NewSubConnAddrsCh tcc' = NewSubConnAddrsCh tcc) ∧
     (full (NewSubConnCh tcc) = true →
      NewSubConnCh tcc' = NewSubConnCh tcc)).
Proof.
  split_and!.
  - eexists. rewrite RemoveSubConn_eq. split; [done|]. simpl.
    apply try_send_full.
  - rewrite NewSubConn_eq. unfold index.
    destruct (subConnIdx tcc <? 0)%Z; [done|].
    by destruct (TestSubConns !! Z.to_nat (subConnIdx tcc)).
  - intros [Hlo Hhi]. unfold TestSubConnsCount in Hhi.
    destruct (lookup_lt_is_Some_2 TestSubConns (Z.to_nat (subConnIdx tcc)))
      as [h Hh].
    { rewrite TestSubConns_length. lia. }
    eexists h, _. rewrite NewSubConn_eq, (index_in_range _ _ h) by done.
    split; [done|]. simpl. split; apply try_send_full.
Qed.

(** C5. After one or more [UpdateState] calls in a row, on a client
    connection whose two single-slot channels are in order, every call has
    returned, and each of the two channels holds exactly one value: the
    connectivity state and the picker of the last call. *)
Theorem UpdateState_keeps_latest tcc (bss : list balancer_State) bs :
  latest_ok tcc →
  ∃ rs tcc',
    for_each UpdateState (bss ++ [bs]) tcc = Ok (rs, tcc') ∧
    buf (NewStateCh tcc') = [ConnectivityState bs] ∧
    buf (NewPickerCh tcc') = [Picker bs].
Proof.
  revert tcc. induction bss as [|b bss IH]; intros tcc Hok.
  - simpl app. rewrite for_each_cons, UpdateState_eq by done. simpl.
    eexists _, _. done.
  - simpl app. rewrite for_each_cons.
    destruct (UpdateState b tcc) as [[r tcc1]| |] eqn:Hb;
      rewrite UpdateState_eq in Hb by done; [|done..].
    destruct (IH tcc1) as (rs & tcc' & -> & Hs & Hp).
    { by eapply latest_ok_UpdateState; [|rewrite UpdateState_eq]. }
    eexists _, _. done.
Qed.
End TestClientConnFacts.

(** ** The constant balancer and the constant picker *)

Section FixtureFacts.
Context {resolver_Address balancer_NewSubConnOptions : Type}.
Context {resolver_ResolveNowOptions balancer_PickInfo : Type}.
Context {connectivity_State balancer_Picker : Type}.
Variable NewSubConnOptions_zero : balancer_NewSubConnOptions.

Local Abbreviation TCC := (@TestClientConn resolver_Address
  balancer_NewSubConnOptions connectivity_State balancer_Picker).
Local Abbreviation CCS := (@balancer_ClientConnState resolver_Address).
Local Abbreviation update :=
  (UpdateClientConnState (resolver_ResolveNowOptions := resolver_ResolveNowOptions)
     NewSubConnOptions_zero (C := TCC)).

Implicit Types (tcc : TCC) (s : CCS).

Lemma UpdateClientConnState_empty s tcc :
  Addresses (ResolverState s) = [] → update s tcc = Ok (None, tcc).
Proof. intros Hs. unfold UpdateClientConnState. by rewrite Hs. Qed.

(** An update with addresses is one [NewSubConn] call, whatever came
    before. *)
Lemma UpdateClientConnState_nonempty s tcc :
  Addresses (ResolverState s) ≠ [] →
  update s tcc =
  match NewSubConn (Addresses (ResolverState s)) NewSubConnOptions_zero tcc with
  | Ok (_, tcc') => Ok (None, tcc')
  | Panic v => Panic v
  | Block => Block
  end.
Proof.
  intros Hs. unfold UpdateClientConnState.
  rewrite decide_False by (by destruct (Addresses (ResolverState s))).
  unfold mbind, M_bind. simpl.
  by destruct (NewSubConn _ _ tcc) as [[r tcc']| |].
Qed.

(** A SubConn state change publishes [Ready] with a picker that always
    fails with [ErrTestConstPicker]. *)
Lemma UpdateSubConnState_publishes {balancer_SubConnState : Type}
    (ready : connectivity_State)
    (to_picker : TestConstPicker → balancer_Picker)
    sc (state : balancer_SubConnState) tcc :
  latest_ok tcc →
  ∃ tcc',
    UpdateSubConnState (resolver_ResolveNowOptions := resolver_ResolveNowOptions)
      ready to_picker (C := TCC) sc state tcc = Ok ((), tcc') ∧
    buf (NewStateCh tcc') = [ready] ∧
    buf (NewPickerCh tcc') =
      [to_picker {| Err := Some ErrTestConstPicker; SC := SubConn_nil |}].
Proof.
  intros Hok. unfold UpdateSubConnState. simpl.
  rewrite UpdateState_eq by done. eexists. done.
Qed.

(** C2, as the code has it. Two updates in a row, each with at least one
    address, delivered to the constant balancer on a new client connection
    make two [NewSubConn] calls: each update with addresses creates one more
    SubConn. *)
Theorem fixture_two_updates_two_calls t s1 s2 :
  Addresses (ResolverState s1) ≠ [] →
  Addresses (ResolverState s2) ≠ [] →
  ∃ tcc',
    exec (update s1;; update s2) (NewTestClientConn t) = Ok tcc' ∧
    NewSubConn_calls tcc' = NewSubConn_calls (NewTestClientConn t : TCC) + 2 ∧
    subConnIdx tcc' = 2%Z ∧
    buf (NewSubConnCh tcc') = take 2 TestSubConns.
Proof.
  intros H1 H2. unfold exec, mbind, M_bind.
  rewrite (UpdateClientConnState_nonempty s1) by done.
  rewrite NewSubConn_eq. simpl.
  rewrite (UpdateClientConnState_nonempty s2) by done.
  rewrite NewSubConn_eq. simpl.
  eexists. split; [done|]. split; [|done].
  unfold NewSubConn_calls. simpl.
  rewrite !List.filter_app, !length_app. simpl. lia.
Qed.

(** C8, as the code has it. [Pick] never returns both a SubConn and an
    error. When [Err] is set it returns the error with an empty result;
    otherwise it returns [SC] with a [nil] error. So exactly one of the two
    is populated when [Err] or [SC] is set, and neither when both are
    [nil]. *)
Theorem Pick_populates_at_most_one (tcp : TestConstPicker)
    (info : balancer_PickInfo) :
  let r := (Pick tcp info).1 in
  let e := (Pick tcp info).2 in
  ¬ (SubConn r ≠ SubConn_nil ∧ e ≠ None) ∧
  (Err tcp ≠ None → SubConn r = SubConn_nil ∧ e = Err tcp) ∧
  (Err tcp = None → SubConn r = SC tcp ∧ e = None) ∧
  (Err tcp ≠ None ∨ SC tcp ≠ SubConn_nil →
   (SubConn r ≠ SubConn_nil ∧ e = None) ∨
   (SubConn r = SubConn_nil ∧ e ≠ None)) ∧
  (Err tcp = None → SC tcp = SubConn_nil →
   SubConn r = SubConn_nil ∧ e = None).
Proof.
  unfold Pick. destruct tcp as [[err|] sc]; simpl.
  - repeat split; try done.
    + by intros [Hsc _].
    + intros _. by right.
  - repeat split; try done.
    + by intros [_ He].
    + intros [He|Hsc]; [done|]. by left.
Qed.

(** C9. The operations that are not supported panic on every argument, in
    every state; none of them returns. *)
Theorem unsupported_operations_panic tcc (s : connectivity_State)
    (p : balancer_Picker) (o : resolver_ResolveNowOptions)
    (e : go_error) {C : Type} (c : C) :
  UpdateBalancerState s p tcc = Panic (PanicString "not implemented") ∧
  ResolveNow o tcc = Panic (PanicString "not implemented") ∧
  Target tcc = Panic (PanicString "not implemented") ∧
  ResolverError e c = Panic (PanicString "not implemented").
Proof. done. Qed.
End FixtureFacts.

(** ** Concrete runs *)

Local Abbreviation sc0 := (SubConn_ptr 0).
Local Abbreviation sc1 := (SubConn_ptr 1).
Local Abbreviation sc2 := (SubConn_ptr 2).

(** The examples of a strict and of a weighted round robin pass, and a
    closure that changes its order from one round to the next fails. *)
Example IsRoundRobin_exact :
  IsRoundRobin (round [sc0; sc1; sc2]) [sc0; sc1; sc2] (start 0)
  = (None, World 0 9).
Proof. vm_compute. reflexivity. Qed.

Example IsRoundRobin_weighted :
  IsRoundRobin (round [sc0; sc0; sc1]) [sc0; sc0; sc1] (start 0)
  = (None, World 0 9).
Proof. vm_compute. reflexivity. Qed.

Example IsRoundRobin_inconsistent :
  IsRoundRobin (round [sc0; sc1; sc0; sc1; sc0; sc0]) [sc0; sc0; sc1] (start 0)
  = (Some (Errorf "non-roundrobin, first iter: %v, second iter: %v"
             [[sc0; sc1; sc0]; [sc1]]),
     World 4 4).
Proof. vm_compute. reflexivity. Qed.

(** C1 at a closure that walks round [sc0, sc1, sc2], checked against the
    same handles in another order. *)
Lemma IsRoundRobin_nil_iff_witness :
  let f := round [sc0; sc1; sc2] in
  let want := [sc2; sc0; sc1] in
  (Z.of_nat (length want) ≤ int_max)%Z ∧
  let n := length want in
  let p := picks f (3 * n) 0 in
  let r := IsRoundRobin f want (start 0) in
  (r.1 = None ↔
     take n p ≡ₚ want ∧
     (∀ k g, k < n → p !! k = Some g →
             (0 ≤ remaining want (take (S k) p) g)%Z) ∧
     (∀ i, i < 2 * n → p !! (n + i) = p !! (i mod n)))
  ∧ (r.1 = None → pick_calls r.2 = 3 * n).
Proof.
  intros f want.
  assert (Z.of_nat (length want) ≤ int_max)%Z as Hlen.
  { unfold int_max. simpl. lia. }
  split; [exact Hlen|]. exact (IsRoundRobin_nil_iff f want 0 Hlen).
Defined.

(** C7 at [want = {sc0, sc0, sc1}] and a closure that always returns
    [sc0]: the third call is the first one too many. *)
Lemma IsRoundRobin_first_negative_witness :
  let f := always sc0 in
  let want := [sc0; sc0; sc1] in
  let p := picks f (length want) () in
  (Z.of_nat (length want) ≤ int_max)%Z ∧
  p !! 2 = Some sc0 ∧
  (∀ j g', j < 2 → p !! j = Some g' →
           (0 ≤ remaining want (take (S j) p) g')%Z) ∧
  (remaining want (take 3 p) sc0 < 0)%Z ∧
  IsRoundRobin f want (start ()) =
  (Some (Errorf "non-roundrobin want: %v, result: %v"
           [want; [sc0; sc0; sc0]]),
   World () 3).
Proof.
  intros f want p.
  assert (Z.of_nat (length want) ≤ int_max)%Z as Hlen.
  { unfold int_max. simpl. lia. }
  assert (p !! 2 = Some sc0) as Hk by reflexivity.
  assert (∀ j g', j < 2 → p !! j = Some g' →
                  (0 ≤ remaining want (take (S j) p) g')%Z) as Hfirst.
  { intros j g' Hj. destruct j as [|[|j]]; [| |lia];
      intros [= <-]; vm_compute; discriminate. }
  assert (remaining want (take 3 p) sc0 < 0)%Z as Hbad by reflexivity.
  split_and!; [done..|].
  exact (IsRoundRobin_first_negative f want () 2 sc0 Hlen Hk Hfirst Hbad).
Defined.

(** C6 with three calls. *)
Lemma NewSubConn_in_pool_order_witness :
  let args := example_arg <$> seq 0 3 in
  (Z.of_nat (length args) ≤ TestSubConnsCount)%Z ∧
  ∃ tcc' : ExampleConn,
    for_each (λ ao, NewSubConn ao.1 ao.2) args (NewTestClientConn []) =
    Ok ([(sc0, None); (sc1, None); (sc2, None)], tcc').
Proof.
  intros args.
  assert (Z.of_nat (length args) ≤ TestSubConnsCount)%Z as Hlen.
  { unfold TestSubConnsCount. simpl. lia. }
  split; [exact Hlen|]. exact (NewSubConn_in_pool_order [] args Hlen).
Defined.

(** C10 with sixteen calls and a seventeenth. *)
Lemma NewSubConn_exhausted_pool_panics_witness :
  let args := example_arg <$> seq 0 16 in
  Z.of_nat (length args) = TestSubConnsCount ∧
  ∃ rs (tcc' : ExampleConn),
    for_each (λ ao, NewSubConn ao.1 ao.2) args (NewTestClientConn []) =
    Ok (rs, tcc') ∧
    subConnIdx tcc' = 16%Z ∧
    NewSubConn ["10.0.0.1:443"] () tcc' = Panic (IndexOutOfRange 16 16).
Proof.
  intros args.
  assert (Z.of_nat (length args) = TestSubConnsCount) as Hlen by reflexivity.
  split; [exact Hlen|].
  exact (NewSubConn_exhausted_pool_panics [] args ["10.0.0.1:443"] () Hlen).
Defined.

(** C4 at a client connection whose history channels are full. *)
Lemma push_on_full_queue_drops_new_event_witness :
  full (RemoveSubConnCh full_conn) = true ∧
  full (NewSubConnAddrsCh full_conn) = true ∧
  full (NewSubConnCh full_conn) = true ∧
  (0 ≤ subConnIdx full_conn < TestSubConnsCount)%Z ∧
  (∃ tcc', RemoveSubConn (SubConn_ptr 10) full_conn = Ok ((), tcc') ∧
     RemoveSubConnCh tcc' = RemoveSubConnCh full_conn) ∧
  (∃ h tcc', NewSubConn ["10.0.0.1:443"] () full_conn = Ok ((h, None), tcc') ∧
     NewSubConnAddrsCh tcc' = NewSubConnAddrsCh full_conn ∧
     NewSubConnCh tcc' = NewSubConnCh full_conn).
Proof.
  assert (full (RemoveSubConnCh full_conn) = true) as Hr by reflexivity.
  assert (full (NewSubConnAddrsCh full_conn) = true) as Ha by reflexivity.
  assert (full (NewSubConnCh full_conn) = true) as Hn by reflexivity.
  assert (0 ≤ subConnIdx full_conn < TestSubConnsCount)%Z as Hi.
  { unfold TestSubConnsCount. simpl. lia. }
  destruct (push_on_full_queue_drops_new_event full_conn ["10.0.0.1:443"] ()
              (SubConn_ptr 10)) as ((tcc1 & H1 & H1') & _ & H2).
  destruct (H2 Hi) as (h & tcc2 & H3 & H3a & H3n).
  split_and!; [done..| |].
  - exists tcc1. split; [exact H1 | exact (H1' Hr)].
  - exists h, tcc2. split_and!; [exact H3 | exact (H3a Ha) | exact (H3n Hn)].
Defined.

(** C5 with two publications on a new client connection. *)
Lemma UpdateState_keeps_latest_witness :
  let tcc : ExampleConn := NewTestClientConn [] in
  let bs1 := {| ConnectivityState := 1; Picker := 10 |} in
  let bs2 := {| ConnectivityState := 2; Picker := 20 |} in
  latest_ok tcc ∧
  ∃ rs tcc',
    for_each UpdateState ([bs1] ++ [bs2]) tcc = Ok (rs, tcc') ∧
    buf (NewStateCh tcc') = [2] ∧ buf (NewPickerCh tcc') = [20].
Proof.
  intros tcc bs1 bs2.
  assert (latest_ok tcc) as Hok.
  { unfold latest_ok, chan_ok. simpl. lia. }
  split; [exact Hok|]. exact (UpdateState_keeps_latest tcc [bs1] bs2 Hok).
Defined.

(** C3 at eleven creations and eleven removals with nobody receiving: each
    history channel holds the first ten events, not the last ten. *)
Theorem history_queue_overflow_keeps_first_ten :
  let args := example_arg <$> seq 0 11 in
  let scs := take 11 TestSubConns in
  ∃ tcc' : ExampleConn,
    exec (for_each (λ ao, NewSubConn ao.1 ao.2) args;;
          for_each RemoveSubConn scs) (NewTestClientConn []) = Ok tcc' ∧
    buf (NewSubConnAddrsCh tcc') = take 10 (args.*1) ∧
    buf (NewSubConnAddrsCh tcc') ≠ drop 1 (args.*1) ∧
    buf (NewSubConnCh tcc') = take 10 scs ∧
    buf (NewSubConnCh tcc') ≠ drop 1 scs ∧
    buf (RemoveSubConnCh tcc') = take 10 scs ∧
    buf (RemoveSubConnCh tcc') ≠ drop 1 scs.
Proof.
  intros args scs. eexists. split; [vm_compute; reflexivity|].
  split_and!; try (vm_compute; reflexivity); vm_compute; discriminate.
Qed.

(** C2 at two updates that carry the same single address: the constant
    balancer calls [NewSubConn] twice, not once. *)
Lemma fixture_two_updates_not_one_call :
  ∃ tcc' : ExampleConn,
    exec (UpdateClientConnState (resolver_ResolveNowOptions := unit) ()
            one_address;;
          UpdateClientConnState (resolver_ResolveNowOptions := unit) ()
            one_address)
      (NewTestClientConn []) = Ok tcc' ∧
    NewSubConn_calls tcc' = 2 ∧
    NewSubConn_calls tcc' ≠ 1.
Proof.
  eexists. split; [vm_compute; reflexivity|].
  split; [reflexivity|]. vm_compute. discriminate.
Qed.

(** C2, as the code has it, at the same two updates. *)
Lemma fixture_two_updates_two_calls_witness :
  Addresses (ResolverState one_address) ≠ [] ∧
  ∃ tcc' : ExampleConn,
    exec (UpdateClientConnState (resolver_ResolveNowOptions := unit) ()
            one_address;;
          UpdateClientConnState (resolver_ResolveNowOptions := unit) ()
            one_address)
      (NewTestClientConn []) = Ok tcc' ∧
    NewSubConn_calls tcc' = NewSubConn_calls (NewTestClientConn [] : ExampleConn) + 2 ∧
    subConnIdx tcc' = 2%Z ∧
    buf (NewSubConnCh tcc') = take 2 TestSubConns.
Proof.
  assert (Addresses (ResolverState one_address) ≠ []) as Hne by discriminate.
  split; [exact Hne|].
  exact (fixture_two_updates_two_calls (resolver_ResolveNowOptions := unit)
           () [] one_address one_address Hne Hne).
Defined.

(** C8 at the zero value [TestConstPicker{}]: [Pick] returns an empty
    result and a [nil] error, so neither alternative is populated. *)
Lemma Pick_zero_value_populates_neither :
  let out := Pick {| Err := None; SC := SubConn_nil |} () in
  (SubConn out.1 = SubConn_nil ∧ out.2 = None) ∧
  ¬ ((SubConn out.1 ≠ SubConn_nil ∧ out.2 = None) ∨
     (SubConn out.1 = SubConn_nil ∧ out.2 ≠ None)).
Proof.
  simpl. split; [done|]. intros [[Hsc _]|[_ He]]; [by apply Hsc | by apply He].
Qed.

(** C8, as the code has it, at the picker the constant balancer
    publishes. *)
Lemma Pick_populates_at_most_one_witness :
  let tcp := {| Err := Some ErrTestConstPicker; SC := SubConn_nil |} in
  let out := Pick tcp () in
  (Err tcp ≠ None ∨ SC tcp ≠ SubConn_nil) ∧
  ((SubConn out.1 ≠ SubConn_nil ∧ out.2 = None) ∨
   (SubConn out.1 = SubConn_nil ∧ out.2 ≠ None)).
Proof.
  intros tcp out.
  assert (Err tcp ≠ None ∨ SC tcp ≠ SubConn_nil) as Hset.
  { left. discriminate. }
  split; [exact Hset|].
  destruct (Pick_populates_at_most_one tcp ()) as (_ & _ & _ & Hone & _).
  exact (Hone Hset).
Defined.

(** * Further properties *)

(** ** The round-robin checker: calls made, second iteration, order *)

Section RoundRobinMore.
Context {SC : Type} `{Countable SC} {St : Type}.
Variable f : St → SC * St.

Implicit Types (want got p : list SC) (s : St) (w : @world St) (sc : SC).

(** Whatever the counts are, the first loop calls [f] at most once per
    element it ranges over, and once per element when it runs to its end,
    in which case it has recorded one value per call. *)
Lemma first_iteration_world want rest (m : gmap SC Z) got w :
  ∃ c, c ≤ length rest ∧
    (first_iteration f want rest m got w).2 = advance f c w ∧
    ∀ g, (first_iteration f want rest m got w).1 = inr g →
         c = length rest ∧ length g = length got + length rest.
Proof.
  revert m got w. induction rest as [|x rest IH]; intros m got w.
  { exists 0. simpl. rewrite advance_0. split_and!; [done..|].
    intros g [= <-]. lia. }
  simpl first_iteration. rewrite call_eq.
  destruct (map_get _ _ <? 0)%Z.
  { exists 1. simpl. split_and!; [lia|done|done]. }
  destruct (IH (map_decr m (f (pick_state w)).1)
              (got ++ [(f (pick_state w)).1]) (advance f 1 w))
    as (c & Hc & Hw & Hg).
  exists (S c). simpl length. split_and!; [lia| |].
  - rewrite Hw, advance_advance. done.
  - intros g Hr. destruct (Hg g Hr) as [-> Hlen].
    rewrite length_app in Hlen. simpl in Hlen. lia.
Qed.

Lemma second_inner_world (first rest second : list SC) w :
  ∃ c, c ≤ length rest ∧
    (second_inner f first rest second w).2 = advance f c w.
Proof.
  revert second w. induction rest as [|x rest IH]; intros second w.
  { exists 0. simpl. by rewrite advance_0. }
  simpl second_inner. rewrite call_eq. case_decide.
  { exists 1. simpl. split; [lia|done]. }
  destruct (IH (second ++ [(f (pick_state w)).1]) (advance f 1 w))
    as (c & Hc & Hw).
  exists (S c). simpl length. split; [lia|].
  rewrite Hw, advance_advance. done.
Qed.

Lemma second_iteration_world todo (first second : list SC) w :
  ∃ c, c ≤ todo * length first ∧
    (second_iteration f todo first second w).2 = advance f c w.
Proof.
  revert second w. induction todo as [|todo IH]; intros second w.
  { exists 0. simpl. by rewrite advance_0. }
  simpl second_iteration.
  destruct (second_inner_world first first second w) as (c1 & Hc1 & Hw1).
  destruct (second_inner f first first second w) as [[e|sec] w1];
    simpl in Hw1; subst w1.
  { exists c1. simpl. split; [lia|done]. }
  destruct (IH sec (advance f c1 w)) as (c2 & Hc2 & Hw2).
  exists (c1 + c2). split; [lia|]. by rewrite Hw2, advance_advance.
Qed.

(** [IsRoundRobin] calls [f] at most [3 * len(want)] times, whatever it
    returns, and leaves the closure in the state that many calls produce. *)
Theorem IsRoundRobin_calls_bounded want s :
  let res := IsRoundRobin f want (start s) in
  pick_calls res.2 ≤ 3 * length want ∧
  pick_state res.2 = after f (pick_calls res.2) s.
Proof.
  cbn zeta. unfold IsRoundRobin.
  destruct (first_iteration_world want want (build_wantSet want) [] (start s))
    as (c1 & Hc1 & Hw1 & Hg1).
  destruct (first_iteration f want want (build_wantSet want) [] (start s))
    as [[e|g] w1]; simpl in Hw1; subst w1.
  { simpl. split; [lia|done]. }
  destruct (Hg1 g eq_refl) as [-> Hlen]. simpl in Hlen.
  destruct (second_iteration_world 2 g [] (advance f (length want) (start s)))
    as (c2 & Hc2 & Hw2).
  rewrite Hw2, advance_advance. simpl. split; [lia|done].
Qed.

(** When the first [len(want)] values are a permutation of [want], the
    first iteration records them and hands over to the second. *)
Lemma IsRoundRobin_phase1_ok want s :
  (Z.of_nat (length want) ≤ int_max)%Z →
  picks f (length want) s ≡ₚ want →
  IsRoundRobin f want (start s) =
  second_iteration f 2 (picks f (length want) s) []
    (advance f (length want) (start s)).
Proof.
  intros Hlen Hperm. unfold IsRoundRobin.
  pose proof (first_iteration_start f want s Hlen) as H1. cbn zeta in H1.
  destruct (first_iteration f want want (build_wantSet want) [] (start s))
    as [[e|g] w1].
  - destruct H1 as (k & g & Hk & _ & Hbad & _ & _).
    pose proof (remaining_take_ge want (picks f (length want) s) (S k) g) as Hge.
    rewrite (remaining_Permutation want _ g Hperm) in Hge. lia.
  - by destruct H1 as (-> & -> & _).
Qed.

Lemma IsRoundRobin_phase1_bad want s :
  (Z.of_nat (length want) ≤ int_max)%Z →
  (IsRoundRobin f want (start s)).1 = None →
  picks f (length want) s ≡ₚ want.
Proof.
  intros Hlen. unfold IsRoundRobin.
  pose proof (first_iteration_start f want s Hlen) as H1. cbn zeta in H1.
  destruct (first_iteration f want want (build_wantSet want) [] (start s))
    as [[e|g] w1]; [done|].
  destruct H1 as (_ & _ & Hall). intros _.
  apply occ_le_Permutation; [by rewrite picks_length|].
  intros sc. specialize (Hall sc). unfold remaining in Hall. lia.
Qed.

Lemma second_inner_passes (first rest second : list SC) w :
  picks f (length rest) (pick_state w) = rest →
  second_inner f first rest second w =
  (inr (second ++ rest), advance f (length rest) w).
Proof.
  intros Hq. pose proof (second_inner_inv f first rest second w) as Hi.
  cbn zeta in Hi.
  destruct (second_inner f first rest second w) as [[e|sec] w'].
  - destruct Hi as (k & wv & g & Hr & Hk & Hne & _).
    rewrite Hq in Hk. congruence.
  - destruct Hi as (_ & -> & ->). by rewrite Hq.
Qed.

Lemma second_inner_stops (first rest second : list SC) w k wv g :
  let q := picks f (length rest) (pick_state w) in
  rest !! k = Some wv → q !! k = Some g → wv ≠ g →
  take k q = take k rest →
  second_inner f first rest second w =
  (inl (Errorf "non-roundrobin, first iter: %v, second iter: %v"
          [first; second ++ take (S k) q]),
   advance f (S k) w).
Proof.
  intros q Hr Hq Hne Htake.
  pose proof (second_inner_inv f first rest second w) as Hi.
  cbn zeta in Hi. fold q in Hi.
  destruct (second_inner f first rest second w) as [[e|sec] w'].
  - destruct Hi as (k' & wv' & g' & Hr' & Hq' & Hne' & Htake' & -> & ->).
    assert (k' = k) as ->; [|done].
    destruct (Nat.lt_trichotomy k' k) as [Hlt|[Heq|Hgt]]; [|done|].
    + assert (q !! k' = rest !! k') as Heq.
      { rewrite <- (lookup_take_lt q k k'), <- (lookup_take_lt rest k k') by done.
        by rewrite Htake. }
      congruence.
    + assert (q !! k = rest !! k) as Heq.
      { rewrite <- (lookup_take_lt q k' k), <- (lookup_take_lt rest k' k) by done.
        by rewrite Htake'. }
      congruence.
  - destruct Hi as (Heq & _ & _). rewrite Heq in Hq. congruence.
Qed.

Lemma mod_second_round n j : n ≤ j → j < 2 * n → j mod n = j - n.
Proof.
  intros H1 H2. replace j with ((j - n) + 1 * n) at 1 by lia.
  rewrite Nat.Div0.mod_add. apply Nat.mod_small. lia.
Qed.

(** When the first [len(want)] values are a permutation of [want] and call
    number [j] of the second iteration (counting from 0) is the first whose
    value differs from the value recorded at position [j mod len(want)],
    [IsRoundRobin] returns at once, after [len(want) + j + 1] calls; the error
    carries the first iteration and the values of the second iteration up
    to the differing one, which it includes. *)
Theorem IsRoundRobin_second_mismatch want s j wv g :
  (Z.of_nat (length want) ≤ int_max)%Z →
  let n := length want in
  let a := picks f n s in
  let q := picks f (2 * n) (after f n s) in
  a ≡ₚ want →
  q !! j = Some g → a !! (j mod n) = Some wv → wv ≠ g →
  (∀ i, i < j → q !! i = a !! (i mod n)) →
  IsRoundRobin f want (start s) =
  (Some (Errorf "non-roundrobin, first iter: %v, second iter: %v"
           [a; take (S j) q]),
   World (after f (n + S j) s) (n + S j)).
Proof.
  intros Hlen n a q Hperm Hq Ha Hne Hbefore.
  rewrite IsRoundRobin_phase1_ok by done. fold n a.
  set (q1 := picks f n (after f n s)).
  set (q2 := picks f n (after f n (after f n s))).
  assert (length a = n ∧ length q1 = n ∧ length q2 = n) as (La & L1 & L2).
  { unfold a, q1, q2. by rewrite !picks_length. }
  assert (q = q1 ++ q2) as Hqq.
  { unfold q. replace (2 * n) with (n + n) by lia. by rewrite picks_add. }
  assert (j < 2 * n) as Hj.
  { apply lookup_lt_Some in Hq. unfold q in Hq.
    by rewrite picks_length in Hq. }
  simpl second_iteration.
  destruct (decide (j < n)) as [Hlt|Hge].
  - rewrite Nat.mod_small in Ha by done.
    rewrite (second_inner_stops a a [] _ j wv g); rewrite ?La; simpl pick_state;
      fold q1; [| done | | done |].
    + assert (take (S j) q = take (S j) q1) as ->.
      { rewrite Hqq. apply take_app_le. lia. }
      rewrite advance_advance. done.
    + rewrite <- Hq, Hqq. symmetry. apply lookup_app_l. lia.
    + apply list_eq. intros i. destruct (decide (i < j)) as [Hi|Hi].
      * rewrite !lookup_take_lt by done.
        rewrite <- (Nat.mod_small i n) at 2 by lia.
        rewrite <- Hbefore by done. rewrite Hqq. symmetry.
        apply lookup_app_l. lia.
      * rewrite !lookup_take_ge by lia. done.
  - assert (q1 = a) as Hq1.
    { apply list_eq. intros i. destruct (decide (i < n)) as [Hi|Hi].
      - rewrite <- (Nat.mod_small i n) at 2 by lia.
        rewrite <- Hbefore by lia. rewrite Hqq. symmetry.
        apply lookup_app_l. lia.
      - rewrite !lookup_ge_None_2 by lia. done. }
    rewrite second_inner_passes; rewrite ?La; simpl pick_state; fold q1;
      [|done].
    rewrite mod_second_round in Ha by lia.
    rewrite (second_inner_stops a a _ _ (j - n) wv g);
      rewrite ?La; simpl pick_state; fold q2; [| done | | done |].
    + assert (take (S j) q = a ++ take (S (j - n)) q2) as ->.
      { rewrite Hqq, Hq1, take_app_ge by lia. rewrite La.
        do 2 f_equal. lia. }
      rewrite !advance_advance. simpl.
      replace (n + S (j - n)) with (S j) by lia.
      replace (n + S j) with (S (n + j)) by lia. done.
    + rewrite <- Hq, Hqq. rewrite lookup_app_r by lia. f_equal. lia.
    + apply list_eq. intros i. destruct (decide (i < j - n)) as [Hi|Hi].
      * rewrite !lookup_take_lt by done.
        transitivity (q !! (n + i)).
        { rewrite Hqq, lookup_app_r by lia. f_equal. lia. }
        rewrite Hbefore by lia. rewrite mod_second_round by lia.
        f_equal. lia.
      * rewrite !lookup_take_ge by lia. done.
Qed.

(** [IsRoundRobin] returns [nil] exactly when the first round is a
    permutation of [want] and the next two rounds are the first again. *)
Lemma IsRoundRobin_nil_rounds want s :
  (Z.of_nat (length want) ≤ int_max)%Z →
  let n := length want in
  (IsRoundRobin f want (start s)).1 = None ↔
  picks f n s ≡ₚ want ∧
  picks f n (after f n s) = picks f n s ∧
  picks f n (after f n (after f n s)) = picks f n s.
Proof.
  intros Hlen n. split.
  - intros Hnil. pose proof (IsRoundRobin_phase1_bad want s Hlen Hnil) as Hperm.
    split; [done|]. rewrite IsRoundRobin_phase1_ok in Hnil by done.
    pose proof (second_iteration_two f (picks f n s)
                  (advance f n (start s))) as H2.
    cbn zeta in H2. rewrite picks_length in H2. simpl pick_state in H2.
    fold n in Hnil.
    destruct (second_iteration f 2 (picks f n s) [] (advance f n (start s)))
      as [[e|] w2]; [done|]. by destruct H2 as (? & ? & _).
  - intros (Hperm & H1 & H2). rewrite IsRoundRobin_phase1_ok by done.
    pose proof (second_iteration_two f (picks f n s)
                  (advance f n (start s))) as H3.
    cbn zeta in H3. rewrite picks_length in H3. simpl pick_state in H3.
    fold n.
    destruct (second_iteration f 2 (picks f n s) [] (advance f n (start s)))
      as [[e|] w2]; [|done]. by destruct H3.
Qed.

(** The order of the elements of [want] does not matter to the verdict:
    two slices with the same elements, each as many times, are accepted for
    the same closures. *)
Theorem IsRoundRobin_want_order want1 want2 s :
  (Z.of_nat (length want1) ≤ int_max)%Z →
  want1 ≡ₚ want2 →
  (IsRoundRobin f want1 (start s)).1 = None ↔
  (IsRoundRobin f want2 (start s)).1 = None.
Proof.
  intros Hlen Hperm.
  assert (length want2 = length want1) as Hl by by rewrite Hperm.
  assert (Z.of_nat (length want2) ≤ int_max)%Z as Hlen2 by by rewrite Hl.
  rewrite (IsRoundRobin_nil_rounds want1 s Hlen).
  rewrite (IsRoundRobin_nil_rounds want2 s Hlen2).
  cbn zeta. rewrite Hl.
  split; intros (Hp & H1 & H2); (split; [|done]).
  - by etrans.
  - etrans; [done|]. by symmetry.
Qed.
End RoundRobinMore.

(** A closure that always returns [a] is accepted exactly for the slices
    that hold nothing but [a]. *)
Theorem IsRoundRobin_constant_closure {SC} `{Countable SC} {St}
    (a : SC) (want : list SC) (s : St) :
  (Z.of_nat (length want) ≤ int_max)%Z →
  (IsRoundRobin (λ s, (a, s)) want (start s)).1 = None ↔
  ∀ x, x ∈ want → x = a.
Proof.
  intros Hlen.
  assert (∀ n t, picks (λ s : St, (a, s)) n t = replicate n a) as Hp.
  { intros n. induction n as [|n IH]; intros t; simpl; [done|]. by rewrite IH. }
  rewrite IsRoundRobin_nil_rounds by done. cbn zeta. rewrite !Hp.
  split.
  - intros (Hperm & _ & _) x Hx. rewrite <- Hperm in Hx.
    by apply elem_of_replicate_inv in Hx.
  - intros Hall. split; [|done].
    by rewrite (proj2 (replicate_as_elem_of a (length want) want)).
Qed.

(** ** testClosure *)

Lemma for_each_app {C A B} (g : A → M C B) l1 l2 c :
  for_each g (l1 ++ l2) c =
  match for_each g l1 c with
  | Ok (r1, c1) =>
      match for_each g l2 c1 with
      | Ok (r2, c2) => Ok (r1 ++ r2, c2)
      | Panic v => Panic v
      | Block => Block
      end
  | Panic v => Panic v
  | Block => Block
  end.
Proof.
  revert c. induction l1 as [|x l1 IH]; intros c.
  { simpl. unfold mret, M_ret. by destruct (for_each g l2 c) as [[]| |]. }
  simpl app. rewrite !for_each_cons.
  destruct (g x c) as [[r0 c0]| |]; [|done..]. rewrite IH.
  destruct (for_each g l1 c0) as [[r1 c1]| |]; [|done..].
  by destruct (for_each g l2 c1) as [[r2 c2]| |].
Qed.

(** A method that returns on every call of a run behaves, as a method
    value, like the run. *)
Lemma method_value_run {C} (m : M C balancer_SubConn) k c xs c' :
  for_each (λ _ : unit, m) (replicate k ()) c = Ok (xs, c') →
  picks (method_value m) k c = xs ∧ after (method_value m) k c = c'.
Proof.
  revert c xs. induction k as [|k IH]; intros c xs.
  { simpl. unfold mret, M_ret. by intros [= <- <-]. }
  simpl replicate. rewrite for_each_cons. rewrite picks_S. simpl after.
  destruct (m c) as [[x c1]| |] eqn:Hm; [|done..].
  assert (method_value m c = (x, c1)) as -> by (unfold method_value; by rewrite Hm).
  simpl.
  destruct (for_each (λ _ : unit, m) (replicate k ()) c1) as [[ys c2]| |] eqn:Hr;
    [|done..].
  intros [= <- <-]. destruct (IH c1 ys Hr) as [-> ->]. done.
Qed.

(** One call on a closure whose index is a position of its slice returns
    the element there and moves the index on by one, back to 0 after the
    last position. *)
Lemma testClosure_next_in_range (tc : testClosure.t) :
  (Z.of_nat (length (testClosure.r tc)) ≤ int_max)%Z →
  testClosure.in_range tc →
  ∃ x, testClosure.r tc !! Z.to_nat (testClosure.i tc) = Some x ∧
    testClosure.next tc =
    Ok (x, testClosure.Make (testClosure.r tc)
             ((testClosure.i tc + 1) mod
                Z.of_nat (length (testClosure.r tc)))%Z).
Proof.
  destruct tc as [l i]. unfold testClosure.in_range. simpl. intros Hlen Hi.
  destruct (lookup_lt_is_Some_2 l (Z.to_nat i)) as [x Hx]; [lia|].
  exists x. split; [done|].
  unfold testClosure.next, mbind, M_bind, lift, get. simpl.
  rewrite (index_in_range _ _ x) by (done || lia).
  unfold int_rem. destruct (Z.eqb_spec (Z.of_nat (length l)) 0); [lia|].
  simpl. unfold mret, M_ret. do 3 f_equal.
  rewrite (wrap_int_id (i + 1)) by (unfold int_min, int_max in *; lia).
  rewrite Z.rem_mod_nonneg by lia.
  apply wrap_int_id.
  pose proof (Z.mod_pos_bound (i + 1) (Z.of_nat (length l))).
  unfold int_min, int_max in *. lia.
Qed.

(** A run of calls that does not pass the end of the slice returns the
    elements from the index on. *)
Lemma testClosure_run l k :
  (Z.of_nat (length l) ≤ int_max)%Z →
  ∀ i0, 0 < k → i0 + k ≤ length l →
    for_each (λ _ : unit, testClosure.next) (replicate k ())
      (testClosure.Make l (Z.of_nat i0)) =
    Ok (take k (drop i0 l),
        testClosure.Make l (Z.of_nat ((i0 + k) mod length l))).
Proof.
  intros Hlen. induction k as [|k IH]; intros i0 Hk Hi; [lia|].
  simpl replicate. rewrite for_each_cons.
  destruct (testClosure_next_in_range (testClosure.Make l (Z.of_nat i0)))
    as (x & Hx & ->); [done|unfold testClosure.in_range; simpl; lia|].
  simpl in Hx |- *. rewrite Nat2Z.id in Hx.
  rewrite (drop_S _ _ _ Hx). simpl take.
  replace ((Z.of_nat i0 + 1) mod Z.of_nat (length l))%Z
    with (Z.of_nat ((i0 + 1) mod length l))
    by (rewrite Nat2Z.inj_mod; f_equal; lia).
  destruct k as [|k].
  { simpl. unfold mret, M_ret. by rewrite take_0. }
  rewrite Nat.mod_small by lia. rewrite IH by lia.
  replace (i0 + 1 + S k) with (i0 + S (S k)) by lia.
  replace (i0 + 1) with (S i0) by lia. done.
Qed.

(** As many calls as the slice has elements return the slice, rotated to
    begin at the index, and leave the closure as it was. *)
Theorem testClosure_round (tc : testClosure.t) :
  (Z.of_nat (length (testClosure.r tc)) ≤ int_max)%Z →
  testClosure.in_range tc →
  let i0 := Z.to_nat (testClosure.i tc) in
  for_each (λ _ : unit, testClosure.next)
    (replicate (length (testClosure.r tc)) ()) tc =
  Ok (drop i0 (testClosure.r tc) ++ take i0 (testClosure.r tc), tc).
Proof.
  destruct tc as [l i]. unfold testClosure.in_range. simpl. intros Hlen Hi.
  set (i0 := Z.to_nat i). replace i with (Z.of_nat i0) by lia.
  assert (i0 < length l) as Hi0 by lia. clearbody i0. clear Hi.
  replace (length l) with ((length l - i0) + i0) at 1 by lia.
  rewrite replicate_add, for_each_app.
  rewrite (testClosure_run l (length l - i0) Hlen i0) by lia.
  rewrite take_ge by (rewrite length_drop; lia).
  replace (i0 + (length l - i0)) with (length l) by lia.
  rewrite Nat.Div0.mod_same.
  destruct i0 as [|i0].
  { simpl. unfold mret, M_ret. done. }
  rewrite (testClosure_run l (S i0) Hlen 0) by lia.
  rewrite drop_0, Nat.add_0_l, Nat.mod_small by lia. done.
Qed.

(** A call on a closure whose index is not a position of its slice, an
    empty slice included, panics on the index; the remainder by the length
    is never reached. *)
Theorem testClosure_next_out_of_range (tc : testClosure.t) :
  ¬ testClosure.in_range tc →
  testClosure.next tc =
  Panic (IndexOutOfRange (testClosure.i tc) (length (testClosure.r tc))).
Proof.
  destruct tc as [l i]. unfold testClosure.in_range. simpl. intros Hi.
  unfold testClosure.next, mbind, M_bind, lift, get. simpl.
  unfold index. destruct (Z.ltb_spec i 0) as [Hneg|Hpos]; [done|].
  rewrite lookup_ge_None_2 by lia. done.
Qed.

(** A closure whose three rounds are a permutation of [want] and twice the
    same again is accepted, after [3 * len(want)] calls. *)
Lemma IsRoundRobin_accepts {SC} `{Countable SC} {St} (f : St → SC * St)
    (want : list SC) (s : St) :
  (Z.of_nat (length want) ≤ int_max)%Z →
  let n := length want in
  picks f n s ≡ₚ want →
  picks f n (after f n s) = picks f n s →
  picks f n (after f n (after f n s)) = picks f n s →
  IsRoundRobin f want (start s) =
  (None, World (after f (n + (n + n)) s) (n + (n + n))).
Proof.
  intros Hlen n Hperm H1 H2. rewrite IsRoundRobin_phase1_ok by done. fold n.
  pose proof (second_iteration_two f (picks f n s) (advance f n (start s)))
    as H3.
  cbn zeta in H3. rewrite picks_length in H3. simpl pick_state in H3.
  destruct (second_iteration f 2 (picks f n s) [] (advance f n (start s)))
    as [[e|] w2].
  - by destruct H3.
  - destruct H3 as (_ & _ & ->). by rewrite advance_advance.
Qed.

(** [IsRoundRobin] accepts [testClosure.next] on a closure over [r] for
    every [want] that has the elements of [r], whatever the order of [want]
    and the index the closure starts at, and leaves the closure at that
    index. *)
Theorem IsRoundRobin_testClosure (tc : testClosure.t)
    (want : list balancer_SubConn) :
  (Z.of_nat (length want) ≤ int_max)%Z →
  testClosure.in_range tc →
  want ≡ₚ testClosure.r tc →
  IsRoundRobin (method_value testClosure.next) want (start tc) =
  (None, World tc (3 * length want)).
Proof.
  intros Hlen Hi Hperm.
  assert (length want = length (testClosure.r tc)) as Hn by by rewrite Hperm.
  pose proof (testClosure_round tc) as Hround. cbn zeta in Hround.
  rewrite <- Hn in Hround. specialize (Hround Hlen Hi).
  apply method_value_run in Hround as [Hp Ha].
  rewrite (IsRoundRobin_accepts (method_value testClosure.next) want tc Hlen).
  - cbn zeta. rewrite !after_add, !Ha. do 2 f_equal. lia.
  - rewrite Hp, Hperm, Permutation_app_comm. by rewrite take_drop.
  - by rewrite Ha.
  - by rewrite !Ha.
Qed.

(** ** Runs of method calls on a client connection *)

Lemma try_send_cap {A} (c : chan A) x : cap (try_send c x) = cap c.
Proof. unfold try_send. by destruct (full c). Qed.

Section CallsFacts.
Context {resolver_Address balancer_NewSubConnOptions : Type}.
Context {connectivity_State balancer_Picker : Type}.

Local Abbreviation TCC := (@TestClientConn resolver_Address
  balancer_NewSubConnOptions connectivity_State balancer_Picker).
Local Abbreviation MC := (@method_call resolver_Address
  balancer_NewSubConnOptions connectivity_State balancer_Picker).

Implicit Types (tcc : TCC) (c : MC) (cs : list MC).

Lemma conn_ok_fresh t : conn_ok (NewTestClientConn t : TCC).
Proof.
  unfold conn_ok, latest_ok, chan_ok, TestSubConnsCount. simpl.
  split_and!; lia.
Qed.

(** One call returns and keeps the connection in order, unless it is a
    [NewSubConn] with the cursor at the end of the pool, which panics. *)
Lemma do_call_spec c tcc :
  conn_ok tcc →
  let k := Z.of_nat (creations [c]) in
  ((subConnIdx tcc + k ≤ 16)%Z →
   ∃ tcc', do_call c tcc = Ok ((), tcc') ∧ conn_ok tcc' ∧
     subConnIdx tcc' = (subConnIdx tcc + k)%Z) ∧
  ((16 < subConnIdx tcc + k)%Z →
   do_call c tcc = Panic (IndexOutOfRange 16 16)).
Proof.
  intros (Ha & Hn & Hr & Hl & Hi). unfold TestSubConnsCount in Hi.
  destruct c as [a o|sc|bs]; cbn zeta; unfold creations; simpl.
  - unfold mbind, M_bind. rewrite NewSubConn_eq. split.
    + intros Hlt.
      destruct (lookup_lt_is_Some_2 TestSubConns (Z.to_nat (subConnIdx tcc)))
        as [h Hh]; [rewrite TestSubConns_length; lia|].
      rewrite (index_in_range _ _ h) by (done || lia).
      rewrite wrap_int_id by (unfold int_min, int_max; lia).
      unfold mret, M_ret. eexists. split; [done|]. split; [|simpl; lia].
      unfold conn_ok, TestSubConnsCount. simpl.
      rewrite !try_send_cap.
      split_and!; try done; try (apply try_send_ok; tauto); try tauto; lia.
    + intros Hgt. assert (subConnIdx tcc = 16%Z) as -> by lia.
      by rewrite index_out_of_range.
  - rewrite RemoveSubConn_eq. split; [|lia]. intros _.
    eexists. split; [done|]. split; [|simpl; lia].
    unfold conn_ok, TestSubConnsCount. simpl. rewrite !try_send_cap.
    split_and!; try done; try (apply try_send_ok; tauto); tauto.
  - rewrite UpdateState_eq by done. split; [|lia]. intros _.
    eexists. split; [done|]. split; [|simpl; lia].
    unfold conn_ok, latest_ok, chan_ok, TestSubConnsCount. simpl.
    split_and!; try tauto; lia.
Qed.

Lemma creations_cons c cs :
  creations (c :: cs) = creations [c] + creations cs.
Proof. unfold creations. simpl. by destruct (is_Call_NewSubConn c). Qed.

(** A run of calls returns and keeps the connection in order when the pool
    has a handle for each of its [NewSubConn] calls, and panics on the
    index otherwise. *)
Lemma run_calls_spec cs :
  ∀ tcc, conn_ok tcc →
    let k := Z.of_nat (creations cs) in
    ((subConnIdx tcc + k ≤ 16)%Z →
     ∃ rs tcc', for_each do_call cs tcc = Ok (rs, tcc') ∧ conn_ok tcc' ∧
       subConnIdx tcc' = (subConnIdx tcc + k)%Z) ∧
    ((16 < subConnIdx tcc + k)%Z →
     for_each do_call cs tcc = Panic (IndexOutOfRange 16 16)).
Proof.
  induction cs as [|c cs IH]; intros tcc Hok; cbn zeta.
  { unfold creations. simpl. pose proof Hok as (_ & _ & _ & _ & Hi).
    unfold TestSubConnsCount in Hi. split; [|lia]. intros _.
    eexists _, _. unfold mret, M_ret. split; [done|].
    split; [|lia]. done. }
  rewrite creations_cons, Nat2Z.inj_add, for_each_cons.
  destruct (do_call_spec c tcc Hok) as [Hret Hpanic]. cbn zeta in *.
  assert (0 ≤ Z.of_nat (creations cs))%Z as Hk by lia.
  destruct (decide (subConnIdx tcc + Z.of_nat (creations [c]) ≤ 16)%Z)
    as [Hc|Hc].
  - destruct (Hret Hc) as (tcc1 & -> & Hok1 & Hi1).
    destruct (IH tcc1 Hok1) as [Hret' Hpanic']. cbn zeta in *.
    rewrite Hi1 in Hret', Hpanic'. split.
    + intros Hle. destruct Hret' as (rs & tcc' & -> & Hok' & Hi'); [lia|].
      eexists _, _. split; [done|]. split; [done|]. lia.
    + intros Hgt. rewrite Hpanic' by lia. done.
  - rewrite Hpanic by lia. split; [lia|done].
Qed.

(** Whatever methods are called, in whatever order, a run that returns
    leaves every channel with the capacity it was made with and no more
    values than that, and the cursor advanced by the number of [NewSubConn]
    calls. *)
Theorem calls_keep_conn_ok tcc cs rs tcc' :
  conn_ok tcc →
  for_each do_call cs tcc = Ok (rs, tcc') →
  conn_ok tcc' ∧
  subConnIdx tcc' = (subConnIdx tcc + Z.of_nat (creations cs))%Z.
Proof.
  intros Hok Hrun.
  destruct (run_calls_spec cs tcc Hok) as [Hret Hpanic]. cbn zeta in *.
  destruct (decide (subConnIdx tcc + Z.of_nat (creations cs) ≤ 16)%Z)
    as [Hc|Hc].
  - destruct (Hret Hc) as (rs1 & tcc1 & Heq & Hok1 & Hi1).
    rewrite Heq in Hrun. by injection Hrun as <- <-.
  - rewrite Hpanic in Hrun by lia. done.
Qed.

(** No run of method calls waits on a channel. A run returns exactly when
    the pool has a handle left for each of its [NewSubConn] calls; otherwise
    it panics with index 16 out of range. *)
Theorem calls_return_iff_pool_suffices tcc cs :
  conn_ok tcc →
  for_each do_call cs tcc ≠ Block ∧
  ((∃ rs tcc', for_each do_call cs tcc = Ok (rs, tcc')) ↔
   (subConnIdx tcc + Z.of_nat (creations cs) ≤ TestSubConnsCount)%Z) ∧
  ((TestSubConnsCount < subConnIdx tcc + Z.of_nat (creations cs))%Z →
   for_each do_call cs tcc = Panic (IndexOutOfRange 16 16)).
Proof.
  intros Hok. unfold TestSubConnsCount.
  destruct (run_calls_spec cs tcc Hok) as [Hret Hpanic]. cbn zeta in *.
  destruct (decide (subConnIdx tcc + Z.of_nat (creations cs) ≤ 16)%Z)
    as [Hc|Hc].
  - destruct (Hret Hc) as (rs1 & tcc1 & Heq & _). rewrite Heq.
    split_and!; [done| |lia]. split; [done|]. intros _. by eexists _, _.
  - rewrite Hpanic by lia. split_and!; [done| |done].
    split; [|lia]. by intros (? & ? & ?).
Qed.

(** [RemoveSubConn] never fails. With nobody receiving, a run of removals
    leaves in [RemoveSubConnCh] what was there followed by the handles
    removed, cut at the capacity; the cursor and the other channels are
    untouched. *)
Theorem RemoveSubConn_many (scs : list balancer_SubConn) tcc :
  chan_ok (RemoveSubConnCh tcc) →
  ∃ tcc',
    for_each RemoveSubConn scs tcc = Ok (replicate (length scs) (), tcc') ∧
    RemoveSubConnCh tcc' =
      MkChan (cap (RemoveSubConnCh tcc))
        (take (cap (RemoveSubConnCh tcc)) (buf (RemoveSubConnCh tcc) ++ scs)) ∧
    logger tcc' = logger tcc ++ (Log_RemoveSubConn <$> scs) ∧
    subConnIdx tcc' = subConnIdx tcc ∧
    NewSubConnAddrsCh tcc' = NewSubConnAddrsCh tcc ∧
    NewSubConnCh tcc' = NewSubConnCh tcc ∧
    NewStateCh tcc' = NewStateCh tcc ∧
    NewPickerCh tcc' = NewPickerCh tcc.
Proof.
  revert tcc. induction scs as [|sc scs IH]; intros tcc Hok.
  { exists tcc. simpl. unfold mret, M_ret. rewrite !app_nil_r.
    rewrite take_ge by done. split_and!; try done. by destruct (RemoveSubConnCh tcc). }
  rewrite for_each_cons, RemoveSubConn_eq.
  match goal with
  | |- context [for_each _ scs ?c] =>
      destruct (IH c) as (tcc' & -> & Hch & Hlog & Hidx & Ha & Hn & Hs & Hp);
        [simpl; by apply try_send_ok|]
  end.
  simpl in *. exists tcc'. split; [done|].
  rewrite Hlog, <- app_assoc. split_and!; try done.
  rewrite Hch, try_send_cap. f_equal.
  unfold try_send. destruct (full (RemoveSubConnCh tcc)) eqn:Hf; simpl.
  - apply bool_decide_eq_true in Hf. rewrite !take_app_le by lia. done.
  - by rewrite <- app_assoc.
Qed.

(** The handles that a run of [NewSubConn] calls on a new client connection
    returns are pairwise distinct, none is [nil], and the handle of call
    number [i] prints as [sc] followed by [i]. *)
Theorem NewSubConn_handles_distinct t
    (args : list (list resolver_Address * balancer_NewSubConnOptions)) :
  (Z.of_nat (length args) ≤ TestSubConnsCount)%Z →
  ∃ rs (tcc' : TCC),
    for_each (λ ao, NewSubConn ao.1 ao.2) args (NewTestClientConn t) =
      Ok (rs, tcc') ∧
    length rs = length args ∧
    NoDup (rs.*1) ∧
    (∀ i h, rs.*1 !! i = Some h →
       h ≠ SubConn_nil ∧
       TestSubConn_String init h = Ok ("sc" +:+ pretty i)).
Proof.
  intros Hlen. unfold TestSubConnsCount in Hlen.
  eexists ((λ sc, (sc, None)) <$> take (length args) TestSubConns), _. split.
  { rewrite NewSubConn_many by (simpl; lia). cbn zeta.
    change (Z.to_nat (subConnIdx (NewTestClientConn t : TCC))) with 0.
    by rewrite drop_0. }
  assert (∀ l : list balancer_SubConn,
            ((λ sc, (sc, @None (error balancer_SubConn))) <$> l).*1 = l)
    as Hfst.
  { intros l. induction l as [|x l IH]; simpl; [done|]. by f_equal. }
  rewrite Hfst.
  split_and!.
  - rewrite length_fmap, length_take, TestSubConns_length. lia.
  - apply (sublist_NoDup _ TestSubConns); [|apply sublist_take].
    rewrite TestSubConns_eq. apply NoDup_fmap_2; [|apply NoDup_seq].
    by intros ?? [= ->].
  - intros i h Hh. apply lookup_take_Some in Hh as [Hh Hi].
    rewrite TestSubConns_eq, list_lookup_fmap in Hh.
    destruct (seq 0 16 !! i) as [j|] eqn:Hj; [|done].
    apply lookup_seq in Hj as [-> Hj]. simpl in Hh. injection Hh as <-.
    split; [done|].
    do 16 (destruct i as [|i]; [vm_compute; reflexivity|]). lia.
Qed.
End CallsFacts.

(** ** The constant balancer over runs of updates *)

Section FixtureMore.
Context {resolver_Address balancer_NewSubConnOptions : Type}.
Context {resolver_ResolveNowOptions balancer_SubConnState : Type}.
Context {balancer_PickInfo : Type}.
Context {connectivity_State balancer_Picker : Type}.
Variable NewSubConnOptions_zero : balancer_NewSubConnOptions.

Local Abbreviation TCC := (@TestClientConn resolver_Address
  balancer_NewSubConnOptions connectivity_State balancer_Picker).
Local Abbreviation CCS := (@balancer_ClientConnState resolver_Address).
Local Abbreviation update :=
  (UpdateClientConnState (resolver_ResolveNowOptions := resolver_ResolveNowOptions)
     NewSubConnOptions_zero (C := TCC)).
Local Abbreviation create :=
  (λ a : list resolver_Address,
     NewSubConn (connectivity_State := connectivity_State)
       (balancer_Picker := balancer_Picker) a NewSubConnOptions_zero).

Implicit Types (tcc : TCC) (s : CCS) (ss : list CCS).

Lemma with_addresses_cons s ss :
  with_addresses (s :: ss) =
  if decide (Addresses (ResolverState s) = []) then with_addresses ss
  else Addresses (ResolverState s) :: with_addresses ss.
Proof.
  unfold with_addresses. simpl.
  by destruct (Addresses (ResolverState s)).
Qed.

(** A run of updates is the run of [NewSubConn] calls, with zero options,
    on the address lists that are not empty; every update returns [nil]. *)
Lemma updates_as_creations ss :
  ∀ tcc,
    for_each update ss tcc =
    match for_each create (with_addresses ss) tcc with
    | Ok (_, tcc') => Ok (replicate (length ss) None, tcc')
    | Panic v => Panic v
    | Block => Block
    end.
Proof.
  induction ss as [|s ss IH]; intros tcc; [done|].
  rewrite for_each_cons, with_addresses_cons. case_decide as Hs.
  - rewrite UpdateClientConnState_empty by done. rewrite IH.
    by destruct (for_each create (with_addresses ss) tcc) as [[]| |].
  - rewrite UpdateClientConnState_nonempty by done. rewrite for_each_cons.
    destruct (NewSubConn _ _ tcc) as [[r1 tcc1]| |]; [|done..].
    rewrite IH.
    by destruct (for_each create (with_addresses ss) tcc1) as [[]| |].
Qed.

Lemma create_as_NewSubConn (l : list (list resolver_Address)) tcc :
  for_each create l tcc =
  for_each (λ ao, NewSubConn ao.1 ao.2)
    ((λ a, (a, NewSubConnOptions_zero)) <$> l) tcc.
Proof.
  revert tcc. induction l as [|a l IH]; intros tcc; [done|].
  simpl fmap. rewrite !for_each_cons. simpl.
  destruct (NewSubConn a NewSubConnOptions_zero tcc) as [[r1 tcc1]| |];
    [|done..].
  by rewrite IH.
Qed.

(** On a new client connection, a run of updates of which at most 16 carry
    addresses returns [nil] every time and creates one SubConn per update
    that carries addresses, none for the others: the cursor is their
    number, and the history channels hold the first ten of their address
    lists and of the handles, in the order of the updates. *)
Theorem fixture_creates_per_update_with_addresses t ss :
  (Z.of_nat (length (with_addresses ss)) ≤ TestSubConnsCount)%Z →
  ∃ tcc',
    for_each update ss (NewTestClientConn t) =
      Ok (replicate (length ss) None, tcc') ∧
    subConnIdx tcc' = Z.of_nat (length (with_addresses ss)) ∧
    buf (NewSubConnAddrsCh tcc') = take 10 (with_addresses ss) ∧
    buf (NewSubConnCh tcc') =
      take 10 (take (length (with_addresses ss)) TestSubConns).
Proof.
  intros Hlen. unfold TestSubConnsCount in Hlen.
  rewrite updates_as_creations, create_as_NewSubConn.
  rewrite NewSubConn_many; rewrite ?length_fmap; simpl; [|lia..].
  eexists. split; [done|]. simpl.
  rewrite !try_send_many by (unfold chan_ok, make_chan; simpl; lia). simpl.
  split_and!; [done| |done]. f_equal. clear Hlen.
  induction (with_addresses ss) as [|a l IH]; simpl; [done|]. by f_equal.
Qed.

(** On a client connection whose single-slot channels are in order, a
    SubConn state change makes the constant balancer publish [Ready] and a
    picker whose every [Pick] returns an empty result and
    [ErrTestConstPicker]. *)
Theorem fixture_publishes_failing_picker (ready : connectivity_State)
    (to_picker : TestConstPicker → balancer_Picker)
    (sc : balancer_SubConn) (state : balancer_SubConnState) tcc :
  latest_ok tcc →
  ∃ tcc' tcp,
    UpdateSubConnState (resolver_ResolveNowOptions := resolver_ResolveNowOptions)
      ready to_picker (C := TCC) sc state tcc = Ok ((), tcc') ∧
    buf (NewStateCh tcc') = [ready] ∧
    buf (NewPickerCh tcc') = [to_picker tcp] ∧
    ∀ info : balancer_PickInfo,
      Pick tcp info = ({| SubConn := SubConn_nil |}, Some ErrTestConstPicker).
Proof.
  intros Hok. unfold UpdateSubConnState. simpl.
  rewrite UpdateState_eq by done. eexists _, _. simpl. done.
Qed.
End FixtureMore.
